(** * Property-map generator: tile cache, bounds, projector and chrome

    A shallow embedding of [property_maps/generate_property_maps.py] and the
    properties its specification states about it.

    Conventions of the embedding.
    - Python [int] is [Z].
    - Python [float] is binary64. A double is the real number it denotes
      and every float operation is the exact operation followed by [rnd],
      the rounding to the nearest double, ties to even, with gradual
      underflow (module [B64]); a float literal is the rounding of its
      decimal. Overflow to an infinity is not modelled: the statements
      keep their inputs in a range where it does not occur. The functions
      of the C library ([math.cos]) are parameters, known by the
      properties a statement assumes of them.
    - Beside it stands the same code in exact real arithmetic. It serves
      the properties that the rounding cannot change: the ones decided by
      the program's own comparisons, by scaling with powers of two or by
      monotonicity, and the ones about exceptions and effects.
    - Where the code only compares floats and tests them with
      [math.isfinite] ([collect_bounds]) a float is a [pyfloat]: a real,
      one of the two infinities, or NaN.
    - A JSON number is a [float] or an [int], as [json.load] gives it;
      [float(n)] of an [int] rounds, or raises beyond the doubles.
    - A function that can raise returns a [result]: [Ok v] or [Raise e].
    - The tile cache directory is a finite map from tile keys to file
      contents; the network is a function from tile keys to responses,
      passed to each call. *)

From Stdlib Require Import ZArith List Sorted String Reals Lra Lia.
From stdpp Require Import gmap.
Import ListNotations.

Open Scope Z_scope.

(** ** Exceptions and results *)

Inductive exn : Type :=
| TypeError
| ValueError
| IndexError
| ZeroDivisionError
| OverflowError
| UnidentifiedImageError
| RuntimeError (msg : string).

Inductive result (A : Type) : Type :=
| Ok (a : A)
| Raise (e : exn).

Arguments Ok {A} a.
Arguments Raise {A} e.

Definition bind {A B : Type} (m : result A) (k : A -> result B) : result B :=
  match m with
  | Ok a => k a
  | Raise e => Raise e
  end.

Notation "'let*' x ':=' m 'in' k" := (bind m (fun x => k))
  (at level 10, x pattern, m at level 100, k at level 200).

(** [[f(v) for v in l]], stopping at the first exception. *)
Fixpoint mapM {A B : Type} (f : A -> result B) (l : list A) : result (list B) :=
  match l with
  | [] => Ok []
  | a :: l' => let* b := f a in let* bs := mapM f l' in Ok (b :: bs)
  end.

(** ** Tile cache and fetcher ([load_tile]) *)

Definition TILE_SIZE : Z := 256.

Definition rgb : Type := Z * Z * Z.

(** Raster images, as the calls that build them. *)
Inductive Image : Type :=
| Image_new (w h : Z) (color : rgb)
    (* Image.new("RGB", (w, h), color) *)
| line (img : Image) (p q : Z * Z) (fill : rgb) (width : Z)
    (* ImageDraw.Draw(img).line([p, q], fill=fill, width=width) *)
| Image_open (data : list Byte.byte).
    (* Image.open(<data>).convert("RGB"), for data the decoder accepts *)

(** A tile file is named [{z}_{x_wrapped}_{y}.png]; the three integers
    determine the name and the name determines them. *)
Abbreviation TileKey := (Z * Z * Z)%type.

(** What [urllib.request.urlopen(req, timeout=20)] followed by [resp.read()]
    does for the URL of a tile. *)
Inductive response : Type :=
| Timeout
| TransportError
| Body (data : list Byte.byte).

(** Effects of a call on the cache directory and on the network. *)
Inductive event : Type :=
| Makedirs                                   (* os.makedirs(TILE_CACHE_DIR, exist_ok=True) *)
| CacheExists (k : TileKey)                  (* os.path.exists(cache_path) *)
| CacheRead (k : TileKey)                    (* Image.open(cache_path) *)
| NetFetch (k : TileKey)                     (* urlopen(...) *)
| CacheWrite (k : TileKey) (data : list Byte.byte). (* open(cache_path, "wb").write(data) *)

Definition is_cache_access (e : event) : bool :=
  match e with
  | CacheExists _ | CacheRead _ | CacheWrite _ _ => true
  | Makedirs | NetFetch _ => false
  end.

Definition is_network_call (e : event) : bool :=
  match e with
  | NetFetch _ => true
  | _ => false
  end.

Definition gray_tile : Image :=
  Image_new TILE_SIZE TILE_SIZE (240, 240, 240).

Definition error_tile : Image :=
  line (line gray_tile (0, 0) (TILE_SIZE, TILE_SIZE) (210, 210, 210) 2)
       (TILE_SIZE, 0) (0, TILE_SIZE) (210, 210, 210) 2.

(** The tile rows of the world at zoom [z]. *)
Definition in_range (z y : Z) : Prop := 0 <= y <= 2 ^ z - 1.

Section TileCache.

(** Whether PIL opens and converts a byte string without raising. *)
Variable decodable : list Byte.byte -> bool.

(** State of the network at the time of the call. *)
Variable net : TileKey -> response.

(** The cache directory is a map from keys to file contents; the events
    record what the call does to it and to the network. When [z < 0],
    [2 ** z] is a float in [0, 1); [2 ^ z] is [0] there, and the test
    [y < 0 or y > max_idx] has the same outcome for every integer [y]
    (it is true). *)
Definition load_tile (cache : gmap TileKey (list Byte.byte)) (z x y : Z)
  : result Image * gmap TileKey (list Byte.byte) * list event :=
  let max_idx := 2 ^ z - 1 in
  if (y <? 0) || (max_idx <? y) then
    (Ok gray_tile, cache, [Makedirs])
  else
    let x_wrapped := x mod 2 ^ z in
    let k : TileKey := (z, x_wrapped, y) in
    match cache !! k with
    | Some stored =>
        (* cache hit: outside the try block *)
        if decodable stored
        then (Ok (Image_open stored), cache, [Makedirs; CacheExists k; CacheRead k])
        else (Raise UnidentifiedImageError, cache, [Makedirs; CacheExists k; CacheRead k])
    | None =>
        match net k with
        | Timeout | TransportError =>
            (Ok error_tile, cache, [Makedirs; CacheExists k; NetFetch k])
        | Body data =>
            (* the bytes are written before they are decoded *)
            let cache' := <[k := data]> cache in
            let evs := [Makedirs; CacheExists k; NetFetch k; CacheWrite k data] in
            if decodable data
            then (Ok (Image_open data), cache', evs)
            else (Ok error_tile, cache', evs)
        end
    end.

End TileCache.

(** A stand-in decoder for the examples: a byte string is accepted when it
    begins with the eight bytes of the PNG signature. *)
Definition png_signature : list Byte.byte :=
  [Byte.x89; Byte.x50; Byte.x4e; Byte.x47; Byte.x0d; Byte.x0a; Byte.x1a; Byte.x0a].

Fixpoint starts_with (prefix data : list Byte.byte) : bool :=
  match prefix, data with
  | [], _ => true
  | _ :: _, [] => false
  | b :: prefix', c :: data' => Byte.eqb b c && starts_with prefix' data'
  end.

Definition has_png_signature (data : list Byte.byte) : bool :=
  starts_with png_signature data.

(** The bytes of ["<html>"], as a server answers with an error page. *)
Definition html_page : list Byte.byte :=
  [Byte.x3c; Byte.x68; Byte.x74; Byte.x6d; Byte.x6c; Byte.x3e].

(** ** Binary64 rounding *)

Open Scope R_scope.

(** [2 ** zoom], an int for [zoom >= 0] and a float below. *)
Definition pow2 (zoom : Z) : R := powerRZ 2 zoom.

(** [int(round(x))]: the nearest integer, the even one on a tie. *)
Definition py_round (x : R) : Z :=
  let f := Int_part x in
  if Rlt_dec (x - IZR f) (1 / 2) then f
  else if Rlt_dec (1 / 2) (x - IZR f) then (f + 1)%Z
  else if Z.even f then f else (f + 1)%Z.

(** The exponent [e] with 2^(e-1) <= |x| < 2^e. *)
Definition mag (x : R) : Z := (Int_part (ln (Rabs x) / ln 2) + 1)%Z.

(** The exponent of the unit in the last place of the doubles around [x]:
    53 significant bits, and no exponent under -1074 (subnormal doubles). *)
Definition fexp (x : R) : Z := Z.max (mag x - 53) (-1074).

(** The double nearest to [x], the one of even significand on a tie: what
    an arithmetic operation of exact result [x] returns. Overflow to an
    infinity (results from 2^1024 - 2^970 on) is not modelled. *)
Definition rnd (x : R) : R := IZR (py_round (x * pow2 (- fexp x))) * pow2 (fexp x).

Close Scope R_scope.

(** The integer [float(n)] stands for: [n] itself up to 2^53, and above it
    the nearest integer of 53 significant bits, the even one on a tie. *)
Definition round_int (n : Z) : Z :=
  let a := Z.abs n in
  if a <? 2 ^ 53 then n
  else
    let k := Z.log2 a - 52 in
    let q := a / 2 ^ k in
    let r := a mod 2 ^ k in
    let h := 2 ^ (k - 1) in
    let q' := if r <? h then q
              else if h <? r then q + 1
              else if Z.even q then q else q + 1 in
    Z.sgn n * (q' * 2 ^ k).

(** ** Floats that are only compared *)

Inductive pyfloat : Type :=
| Fin (r : R)
| PInf
| NInf
| NaN.

(** [math.isfinite] *)
Definition isfinite (f : pyfloat) : bool :=
  match f with
  | Fin _ => true
  | _ => false
  end.

(** [a < b] on floats: false as soon as one side is NaN. *)
Definition flt (a b : pyfloat) : bool :=
  match a, b with
  | NaN, _ | _, NaN => false
  | _, NInf => false
  | NInf, _ => true
  | PInf, _ => false
  | Fin _, PInf => true
  | Fin x, Fin y => if Rlt_dec x y then true else false
  end.

(** The builtins [min(a, b)] and [max(a, b)]: the first argument is kept
    unless the second compares strictly below (above) it. *)
Definition pymin (a b : pyfloat) : pyfloat := if flt b a then b else a.
Definition pymax (a b : pyfloat) : pyfloat := if flt a b then b else a.

(** ** Geometry dictionaries ([polygon_outer_rings]) *)

(** The [coordinates] member of a GeoJSON geometry as [json.load] returns
    it: nested lists of numbers, of any shape; [None] for a JSON null. A
    number written without fraction or exponent is an [int], of any size;
    any other number is a [float]. *)
#[warnings="-register-all"]
Inductive json : Type :=
| JNull
| JNum (x : pyfloat)
| JInt (n : Z)
| JArr (items : list json).

(** A geometry dictionary: [gtype] is the string under ["type"], if any;
    [coordinates] is the value under ["coordinates"], if the key is
    present. *)
Record geometry : Type := {
  gtype : option string;
  coordinates : option json
}.

Definition Ring : Type := list (pyfloat * pyfloat).

(** [for v in x] *)
Definition iter (x : json) : result (list json) :=
  match x with
  | JArr items => Ok items
  | JNull | JNum _ | JInt _ => Raise TypeError
  end.

(** Truth value of [x], as [not poly] tests it. *)
Definition truthy (x : json) : bool :=
  match x with
  | JNull => false
  | JNum (Fin r) => if Req_dec_T r 0 then false else true
  | JNum _ => true
  | JInt n => negb (n =? 0)
  | JArr [] => false
  | JArr (_ :: _) => true
  end.

(** [x[0]] *)
Definition index0 (x : json) : result json :=
  match x with
  | JArr (v :: _) => Ok v
  | JArr [] => Raise IndexError
  | JNull | JNum _ | JInt _ => Raise TypeError
  end.

(** [lon, lat = x] *)
Definition unpack2 (x : json) : result (json * json) :=
  match x with
  | JArr [lon; lat] => Ok (lon, lat)
  | JArr _ => Raise ValueError
  | JNull | JNum _ | JInt _ => Raise TypeError
  end.

(** The ints [float] converts: those that round to a double, under
    2^1024 - 2^970 in absolute value. *)
Definition fits_double (n : Z) : bool := Z.abs n <? 2 ^ 1024 - 2 ^ 970.

(** [float(x)] *)
Definition to_float (x : json) : result pyfloat :=
  match x with
  | JNum f => Ok f
  | JInt n => if fits_double n then Ok (Fin (IZR (round_int n)))
              else Raise OverflowError
  | JNull | JArr _ => Raise TypeError
  end.

(** One element of the comprehension
    [[(float(lon), float(lat)) for lon, lat in outer]]. *)
Definition position (x : json) : result (pyfloat * pyfloat) :=
  let* (lon, lat) := unpack2 x in
  let* lon' := to_float lon in
  let* lat' := to_float lat in
  Ok (lon', lat').

(** The loop [for poly in polys], with [rings] as accumulated so far. *)
Fixpoint outer_rings_loop (polys : list json) (rings : list Ring)
  : result (list Ring) :=
  match polys with
  | [] => Ok rings
  | poly :: polys' =>
      if negb (truthy poly) then outer_rings_loop polys' rings
      else
        let* outer := index0 poly in
        let* items := iter outer in
        let* ring := mapM position items in
        if (3 <=? length ring)%nat
        then outer_rings_loop polys' (rings ++ [ring])
        else outer_rings_loop polys' rings
  end.

Definition gtype_is (g : geometry) (name : string) : bool :=
  match gtype g with
  | Some t => String.eqb t name
  | None => false
  end.

Definition polygon_outer_rings (g : geometry) : result (list Ring) :=
  let coords := match coordinates g with Some c => c | None => JArr [] end in
  if gtype_is g "Polygon" then
    outer_rings_loop [coords] []
  else if gtype_is g "MultiPolygon" then
    let* polys := iter coords in
    outer_rings_loop polys []
  else
    Ok [].

(** ** Bounds calculator ([collect_bounds], [contextual_bounds]) *)

(** A feature item, as [query_parcel] builds it. *)
Record feature : Type := {
  apn : string;
  county : string;
  feature_geometry : geometry
}.

(** The running (min_lon, max_lon, min_lat, max_lat). *)
Definition extent : Type := pyfloat * pyfloat * pyfloat * pyfloat.

(** Body of the innermost loop [for lon, lat in ring]. *)
Definition track (acc : extent) (p : pyfloat * pyfloat) : extent :=
  let '(min_lon, max_lon, min_lat, max_lat) := acc in
  let '(lon, lat) := p in
  (pymin min_lon lon, pymax max_lon lon, pymin min_lat lat, pymax max_lat lat).

(** The loop [for item in feature_items]. *)
Fixpoint collect_loop (feature_items : list feature) (acc : extent)
  : result extent :=
  match feature_items with
  | [] => Ok acc
  | item :: items' =>
      let* rings := polygon_outer_rings (feature_geometry item) in
      collect_loop items'
        (fold_left (fun acc' ring => fold_left track ring acc') rings acc)
  end.

Definition collect_bounds (feature_items : list feature)
  : result (pyfloat * pyfloat * pyfloat * pyfloat) :=
  let* (min_lon, max_lon, min_lat, max_lat) :=
    collect_loop feature_items (PInf, NInf, PInf, NInf) in
  if negb (isfinite min_lon)
  then Raise (RuntimeError "No geometry bounds available")
  else Ok (min_lon, min_lat, max_lon, max_lat).

(** ** Functions that compute with floats (reals, exact arithmetic) *)

Open Scope R_scope.

(** (min_lon, min_lat, max_lon, max_lat) *)
Definition Bounds : Type := R * R * R * R.

Definition contextual_bounds (bounds : Bounds)
    (padding_factor min_span_lon min_span_lat : R) : Bounds :=
  let '(min_lon, min_lat, max_lon, max_lat) := bounds in
  let center_lon := (min_lon + max_lon) / 2 in
  let center_lat := (min_lat + max_lat) / 2 in
  let base_dx := Rmax (Rmax (max_lon - min_lon) min_span_lon) 1e-6 in
  let base_dy := Rmax (Rmax (max_lat - min_lat) min_span_lat) 1e-6 in
  let half_w := base_dx * (0.5 + padding_factor) in
  let half_h := base_dy * (0.5 + padding_factor) in
  (center_lon - half_w, center_lat - half_h,
   center_lon + half_w, center_lat + half_h).

(** ** Mercator projector ([lonlat_to_world_px], [choose_zoom]) *)

Definition clamp_lat (lat : R) : R :=
  Rmax (Rmin lat 85.05112878) (-85.05112878).

(** [math.radians] *)
Definition radians (deg : R) : R := deg * (PI / 180).

(** On a clamped latitude [math.cos] is positive and the argument of
    [math.log] is positive: neither the division nor the logarithm raises. *)
Definition lonlat_to_world_px (lon lat : R) (zoom : Z) : R * R :=
  let lat := clamp_lat lat in
  let n := pow2 zoom in
  let x := (lon + 180) / 360 * n * IZR TILE_SIZE in
  let lat_rad := radians lat in
  let y := (1 - ln (tan lat_rad + 1 / cos lat_rad) / PI) / 2 in
  let y := y * (n * IZR TILE_SIZE) in
  (x, y).

(** The test of the loop body of [choose_zoom] at one zoom level. *)
Definition fits (bounds : Bounds) (map_width map_height : Z) (zoom : Z) : bool :=
  let '(min_lon, min_lat, max_lon, max_lat) := bounds in
  let '(x0, y0) := lonlat_to_world_px min_lon max_lat zoom in
  let '(x1, y1) := lonlat_to_world_px max_lon min_lat zoom in
  let span_w := Rabs (x1 - x0) in
  let span_h := Rabs (y1 - y0) in
  if Rle_dec span_w (IZR map_width * 0.72)
  then if Rle_dec span_h (IZR map_height * 0.72) then true else false
  else false.

Fixpoint choose_zoom_loop (bounds : Bounds) (map_width map_height : Z)
    (zooms : list Z) : Z :=
  match zooms with
  | [] => 10%Z
  | zoom :: zooms' =>
      if fits bounds map_width map_height zoom then zoom
      else choose_zoom_loop bounds map_width map_height zooms'
  end.

(** [range(18, 9, -1)] *)
Definition zoom_levels : list Z := [18; 17; 16; 15; 14; 13; 12; 11; 10]%Z.

Definition choose_zoom (bounds : Bounds) (map_width map_height : Z) : Z :=
  choose_zoom_loop bounds map_width map_height zoom_levels.

Record MapProjection : Type := {
  zoom : Z;
  crop_min_x : R;
  crop_min_y : R;
  map_left : Z;
  map_top : Z;
  map_width : Z;
  map_height : Z;
  center_lat : R
}.

Definition build_projection (bounds : Bounds)
    (map_left map_top map_width map_height : Z) : MapProjection :=
  let '(min_lon, min_lat, max_lon, max_lat) := bounds in
  let zoom := choose_zoom bounds map_width map_height in
  let '(x0, y0) := lonlat_to_world_px min_lon max_lat zoom in
  let '(x1, y1) := lonlat_to_world_px max_lon min_lat zoom in
  let center_x := (x0 + x1) / 2 in
  let center_y := (y0 + y1) / 2 in
  {| zoom := zoom;
     crop_min_x := center_x - IZR map_width / 2;
     crop_min_y := center_y - IZR map_height / 2;
     map_left := map_left;
     map_top := map_top;
     map_width := map_width;
     map_height := map_height;
     center_lat := (min_lat + max_lat) / 2 |}.

(** ** Centroid of a ring ([ring_centroid]) *)

Definition Point : Type := R * R.

(** One pass of the body of [for i in range(n - 1)], on the edge from [p0]
    to [p1]; the accumulator is (a, cx, cy). *)
Definition edge_step (acc : R * R * R) (p0 p1 : Point) : R * R * R :=
  let '(a, cx, cy) := acc in
  let '(x0, y0) := p0 in
  let '(x1, y1) := p1 in
  let cross := x0 * y1 - x1 * y0 in
  (a + cross, cx + (x0 + x1) * cross, cy + (y0 + y1) * cross).

(** The loop [for i in range(n - 1)]: the edges ring[i] -> ring[i + 1]. *)
Fixpoint edge_loop (ring : list Point) (acc : R * R * R) : R * R * R :=
  match ring with
  | p0 :: ((p1 :: _) as ring') => edge_loop ring' (edge_step acc p0 p1)
  | _ => acc
  end.

(** The builtin [sum]. *)
Definition pysum (xs : list R) : R := fold_left Rplus xs 0.

Definition ring_centroid (ring : list Point) : result Point :=
  let n := length ring in
  if (n <? 3)%nat then
    match ring with
    | p :: _ => Ok p
    | [] => Raise IndexError
    end
  else
    let '(a, cx, cy) := edge_loop ring (0, 0, 0) in
    if Rlt_dec (Rabs a) 1e-12 then
      let xs := map fst ring in
      let ys := map snd ring in
      Ok (pysum xs / INR (length xs), pysum ys / INR (length ys))
    else
      let a := a * 0.5 in
      Ok (cx / (6 * a), cy / (6 * a)).

(** The centroid as the specification words it: the signed-area-weighted
    formula over the ring treated as closed, with the edge from the last
    vertex back to the first; the arithmetic mean of the vertices. *)
Definition closed_edges (ring : list Point) : list (Point * Point) :=
  combine ring (tl ring ++ firstn 1 ring).

Definition cross (e : Point * Point) : R :=
  fst (fst e) * snd (snd e) - fst (snd e) * snd (fst e).

Definition Rsum {A : Type} (f : A -> R) (l : list A) : R :=
  fold_right (fun a s => f a + s) 0 l.

Definition signed_area (ring : list Point) : R :=
  Rsum cross (closed_edges ring) / 2.

Definition closed_centroid (ring : list Point) : Point :=
  let A := signed_area ring in
  (Rsum (fun e => (fst (fst e) + fst (snd e)) * cross e) (closed_edges ring) / (6 * A),
   Rsum (fun e => (snd (fst e) + snd (snd e)) * cross e) (closed_edges ring) / (6 * A)).

Definition arithmetic_mean (ring : list Point) : Point :=
  (Rsum fst ring / INR (length ring), Rsum snd ring / INR (length ring)).

(** ** Scale bar ([draw_scale_bar]) *)

Definition meters_per_px (proj : MapProjection) : R :=
  156543.03392 * cos (radians (center_lat proj)) / pow2 (zoom proj).

Definition target_px : R := 160.

Definition options_m : list Z :=
  [50; 100; 200; 250; 500; 1000; 2000; 5000; 10000]%Z.

(** The loop [for m in options_m], entered with a non-zero divisor. *)
Fixpoint scale_loop (mpp : R) (options : list Z) (chosen : Z) : Z :=
  match options with
  | [] => chosen
  | m :: options' =>
      if Rle_dec (IZR m / mpp) target_px
      then scale_loop mpp options' m
      else scale_loop mpp options' chosen
  end.

(** The value of [chosen] when the loop of [draw_scale_bar] ends; the
    drawing calls that follow consume it. A float division by zero raises. *)
Definition draw_scale_bar (proj : MapProjection) : result Z :=
  let mpp := meters_per_px proj in
  match options_m with
  | [] => Raise IndexError
  | first :: _ =>
      if Req_dec_T mpp 0 then Raise ZeroDivisionError
      else Ok (scale_loop mpp options_m first)
  end.

(** Length in pixels of a bar of [m] meters. *)
Definition bar_length (proj : MapProjection) (m : Z) : R :=
  IZR m / meters_per_px proj.

(** ** The same functions in binary64 *)

(** Every arithmetic operation returns the double nearest to its exact
    result; a float literal is the double nearest to its decimal value; an
    int that meets a float is converted first, exactly for the ints of the
    code (below 2^53). *)
Module B64.

Definition lit (x : R) : R := rnd x.
Definition add (x y : R) : R := rnd (x + y).
Definition sub (x y : R) : R := rnd (x - y).
Definition mul (x y : R) : R := rnd (x * y).
Definition div (x y : R) : R := rnd (x / y).

(** [x / y] where the divisor is not a constant. *)
Definition fdiv (x y : R) : result R :=
  if Req_dec_T y 0 then Raise ZeroDivisionError else Ok (div x y).

Definition contextual_bounds (bounds : Bounds)
    (padding_factor min_span_lon min_span_lat : R) : Bounds :=
  let '(min_lon, min_lat, max_lon, max_lat) := bounds in
  let center_lon := div (add min_lon max_lon) 2 in
  let center_lat := div (add min_lat max_lat) 2 in
  let base_dx := Rmax (Rmax (sub max_lon min_lon) min_span_lon) (lit 1e-6) in
  let base_dy := Rmax (Rmax (sub max_lat min_lat) min_span_lat) (lit 1e-6) in
  let half_w := mul base_dx (add 0.5 padding_factor) in
  let half_h := mul base_dy (add 0.5 padding_factor) in
  (sub center_lon half_w, sub center_lat half_h,
   add center_lon half_w, add center_lat half_h).

Definition edge_step (acc : R * R * R) (p0 p1 : Point) : R * R * R :=
  let '(a, cx, cy) := acc in
  let '(x0, y0) := p0 in
  let '(x1, y1) := p1 in
  let cross := sub (mul x0 y1) (mul x1 y0) in
  (add a cross, add cx (mul (add x0 x1) cross), add cy (mul (add y0 y1) cross)).

Fixpoint edge_loop (ring : list Point) (acc : R * R * R) : R * R * R :=
  match ring with
  | p0 :: ((p1 :: _) as ring') => edge_loop ring' (edge_step acc p0 p1)
  | _ => acc
  end.

(** The builtin [sum], as a chain of additions from the left (from Python
    3.12 on it compensates the rounding errors of the chain: the two agree
    whenever no addition of the chain rounds). *)
Definition pysum (xs : list R) : R := fold_left add xs 0.

Definition ring_centroid (ring : list Point) : result Point :=
  let n := length ring in
  if (n <? 3)%nat then
    match ring with
    | p :: _ => Ok p
    | [] => Raise IndexError
    end
  else
    let '(a, cx, cy) := edge_loop ring (0, 0, 0) in
    if Rlt_dec (Rabs a) (lit 1e-12) then
      let xs := map fst ring in
      let ys := map snd ring in
      let* x := fdiv (pysum xs) (INR (length xs)) in
      let* y := fdiv (pysum ys) (INR (length ys)) in
      Ok (x, y)
    else
      let a := mul a 0.5 in
      let* x := fdiv cx (mul 6 a) in
      let* y := fdiv cy (mul 6 a) in
      Ok (x, y).

Section MathLibrary.

(** [math.cos], from the C library: a function from doubles to doubles. *)
Variable math_cos : R -> R.

(** [math.radians]: the product by the double [math.pi / 180.0]. *)
Definition radians (deg : R) : R := mul deg (div (lit PI) 180).

Definition meters_per_px (proj : MapProjection) : R :=
  div (mul (lit 156543.03392) (math_cos (radians (center_lat proj))))
      (pow2 (zoom proj)).

(** The loop [for m in options_m], entered with a non-zero divisor. *)
Fixpoint scale_loop (mpp : R) (options : list Z) (chosen : Z) : Z :=
  match options with
  | [] => chosen
  | m :: options' =>
      if Rle_dec (div (IZR m) mpp) target_px
      then scale_loop mpp options' m
      else scale_loop mpp options' chosen
  end.

Definition draw_scale_bar (proj : MapProjection) : result Z :=
  let mpp := meters_per_px proj in
  match options_m with
  | [] => Raise IndexError
  | first :: _ =>
      if Req_dec_T mpp 0 then Raise ZeroDivisionError
      else Ok (scale_loop mpp options_m first)
  end.

(** Length in pixels of a bar of [m] meters, as the loop computes it. *)
Definition bar_length (proj : MapProjection) (m : Z) : R :=
  div (IZR m) (meters_per_px proj).

End MathLibrary.

End B64.

Close Scope R_scope.

(** ** Shapes and extrema used in the statements *)

(** A number [float] converts: a float, or an int in the range of the
    doubles. *)
Definition is_number (x : json) : bool :=
  match x with
  | JNum _ => true
  | JInt n => fits_double n
  | _ => false
  end.

(** A position: a list of exactly two numbers. *)
Definition is_position (x : json) : bool :=
  match x with
  | JArr [lon; lat] => is_number lon && is_number lat
  | _ => false
  end.

(** A polygon the loop can process: empty or null, or a list whose first
    member is a list of positions. *)
Definition polygon_shaped (poly : json) : bool :=
  match poly with
  | JNull | JArr [] => true
  | JArr (JArr outer :: _) => forallb is_position outer
  | _ => false
  end.

(** The coordinates have the shape the geometry type announces. *)
Definition well_shaped (g : geometry) : bool :=
  let coords := match coordinates g with Some c => c | None => JArr [] end in
  if gtype_is g "Polygon" then polygon_shaped coords
  else if gtype_is g "MultiPolygon" then
    match coords with
    | JArr polys => forallb polygon_shaped polys
    | _ => false
    end
  else true.

(** The float of a number, and the pair of floats of a position. *)
Definition number_value (x : json) : pyfloat :=
  match x with
  | JNum f => f
  | JInt n => Fin (IZR (round_int n))
  | _ => NaN
  end.

Definition position_value (x : json) : pyfloat * pyfloat :=
  match x with
  | JArr [lon; lat] => (number_value lon, number_value lat)
  | _ => (NaN, NaN)
  end.

(** The outer ring of a shaped polygon, when it has three points or more. *)
Definition kept_ring (poly : json) : list Ring :=
  match poly with
  | JArr (JArr outer :: _) =>
      if (3 <=? length outer)%nat then [map position_value outer] else []
  | _ => []
  end.

(** The polygons the loop of [polygon_outer_rings] runs over. *)
Definition polygons_of (g : geometry) : list json :=
  let coords := match coordinates g with Some c => c | None => JArr [] end in
  if gtype_is g "Polygon" then [coords]
  else if gtype_is g "MultiPolygon" then
    match coords with
    | JArr polys => polys
    | _ => []
    end
  else [].

(** All the rings [collect_bounds] visits, in the order of its loops. *)
Definition all_rings (feature_items : list feature) : result (list Ring) :=
  let* ringss := mapM (fun item => polygon_outer_rings (feature_geometry item))
                      feature_items in
  Ok (concat ringss).

Definition finite_point (p : pyfloat * pyfloat) : bool :=
  isfinite (fst p) && isfinite (snd p).

Definition is_least (m : R) (l : list pyfloat) : Prop :=
  In (Fin m) l /\ forall x, In (Fin x) l -> (m <= x)%R.

Definition is_greatest (m : R) (l : list pyfloat) : Prop :=
  In (Fin m) l /\ forall x, In (Fin x) l -> (x <= m)%R.

(** What the loops leave in a running minimum started at +inf (a running
    maximum started at -inf): a value that is not NaN, that is a coordinate
    or the start value, and that no coordinate compares below (above). A
    NaN coordinate compares with nothing and is skipped. *)
Definition running_min (m : pyfloat) (l : list pyfloat) : Prop :=
  m <> NaN /\ (In m l \/ m = PInf) /\ forall x, In x l -> flt x m = false.

Definition running_max (m : pyfloat) (l : list pyfloat) : Prop :=
  m <> NaN /\ (In m l \/ m = NInf) /\ forall x, In x l -> flt m x = false.

Definition no_geometry : exn := RuntimeError "No geometry bounds available".

(** Example inputs. *)

Definition pos2 (lon lat : R) : json := JArr [JNum (Fin lon); JNum (Fin lat)].
Definition pos3 (lon lat alt : R) : json :=
  JArr [JNum (Fin lon); JNum (Fin lat); JNum (Fin alt)].

(** A triangle whose positions carry an altitude, as GeoJSON allows. *)
Definition polygon_with_altitudes : geometry :=
  {| gtype := Some "Polygon"%string;
     coordinates := Some (JArr [JArr [pos3 0 0 5; pos3 1 0 5; pos3 1 1 5; pos3 0 0 5]]) |}.

(** A triangle on integer coordinates, one of them beyond the doubles:
    [json.load] reads an integer literal of any length as an [int]. *)
Definition polygon_with_huge_integer : geometry :=
  {| gtype := Some "Polygon"%string;
     coordinates :=
       Some (JArr [JArr [JArr [JInt (10 ^ 309); JInt 0]; JArr [JInt 1; JInt 0];
                         JArr [JInt 1; JInt 1]; JArr [JInt (10 ^ 309); JInt 0]]]) |}.

(** A triangle on integer coordinates, one of them not a double. *)
Definition polygon_with_integers : geometry :=
  {| gtype := Some "Polygon"%string;
     coordinates :=
       Some (JArr [JArr [JArr [JInt (2 ^ 53 + 1); JInt 0]; JArr [JInt 1; JInt 0];
                         JArr [JInt 1; JInt 1]; JArr [JInt (2 ^ 53 + 1); JInt 0]]]) |}.

(** A multipolygon with an empty sub-polygon, a two-point outer ring and a
    closed triangle followed by a hole. *)
Definition mixed_multipolygon : geometry :=
  {| gtype := Some "MultiPolygon"%string;
     coordinates := Some (JArr [
       JArr [];
       JArr [JArr [pos2 0 0; pos2 1 1]];
       JArr [JArr [pos2 0 0; pos2 4 0; pos2 0 4; pos2 0 0];
             JArr [pos2 1 1; pos2 2 1; pos2 1 2; pos2 1 1]]]) |}.

(** A parcel whose longitudes are NaN and whose latitudes are numbers. *)
Definition nan_longitude_ring : list json :=
  [JArr [JNum NaN; JNum (Fin 36.7)];
   JArr [JNum NaN; JNum (Fin 36.8)];
   JArr [JNum NaN; JNum (Fin 36.7)]].

Definition nan_longitude_parcel : feature :=
  {| apn := "300-350-18"%string;
     county := "Fresno"%string;
     feature_geometry :=
       {| gtype := Some "Polygon"%string;
          coordinates := Some (JArr [JArr nan_longitude_ring]) |} |}.

(** A parcel whose latitudes are NaN and whose longitudes are numbers. *)
Definition nan_latitude_parcel : feature :=
  {| apn := "300-350-18"%string;
     county := "Fresno"%string;
     feature_geometry :=
       {| gtype := Some "Polygon"%string;
          coordinates :=
            Some (JArr [JArr [JArr [JNum (Fin (-119.9)); JNum NaN];
                              JArr [JNum (Fin (-119.8)); JNum NaN];
                              JArr [JNum (Fin (-119.9)); JNum NaN]]]) |} |}.

Definition square_parcel : feature :=
  {| apn := "300-350-18"%string;
     county := "Fresno"%string;
     feature_geometry :=
       {| gtype := Some "Polygon"%string;
          coordinates := Some (JArr [JArr [pos2 (-119.9) 36.7; pos2 (-119.8) 36.7;
                                           pos2 (-119.8) 36.8; pos2 (-119.9) 36.8;
                                           pos2 (-119.9) 36.7]]) |} |}.

(** Components, center and containment of bounds. *)

Definition bounds_min_lon (b : Bounds) : R := fst (fst (fst b)).
Definition bounds_min_lat (b : Bounds) : R := snd (fst (fst b)).
Definition bounds_max_lon (b : Bounds) : R := snd (fst b).
Definition bounds_max_lat (b : Bounds) : R := snd b.

Definition bounds_center (b : Bounds) : R * R :=
  ((bounds_min_lon b + bounds_max_lon b) / 2,
   (bounds_min_lat b + bounds_max_lat b) / 2)%R.

(** [outer] contains [inner]. *)
Definition contains (outer inner : Bounds) : Prop :=
  (bounds_min_lon outer <= bounds_min_lon inner
   /\ bounds_min_lat outer <= bounds_min_lat inner
   /\ bounds_max_lon inner <= bounds_max_lon outer
   /\ bounds_max_lat inner <= bounds_max_lat outer)%R.

Definition strictly_contains (outer inner : Bounds) : Prop :=
  (bounds_min_lon outer < bounds_min_lon inner
   /\ bounds_min_lat outer < bounds_min_lat inner
   /\ bounds_max_lon inner < bounds_max_lon outer
   /\ bounds_max_lat inner < bounds_max_lat outer)%R.

(** The bounds invariant of the data model, and its weak form. *)
Definition proper_bounds (b : Bounds) : Prop :=
  (bounds_min_lon b < bounds_max_lon b /\ bounds_min_lat b < bounds_max_lat b)%R.

Definition ordered_bounds (b : Bounds) : Prop :=
  (bounds_min_lon b <= bounds_max_lon b /\ bounds_min_lat b <= bounds_max_lat b)%R.

(** Width and height of bounds, in degrees. *)
Definition span_lon (b : Bounds) : R := (bounds_max_lon b - bounds_min_lon b)%R.
Definition span_lat (b : Bounds) : R := (bounds_max_lat b - bounds_min_lat b)%R.

(** Every coordinate is at most [M] in absolute value. *)
Definition within_magnitude (M : R) (b : Bounds) : Prop :=
  (Rabs (bounds_min_lon b) <= M /\ Rabs (bounds_min_lat b) <= M
   /\ Rabs (bounds_max_lon b) <= M /\ Rabs (bounds_max_lat b) <= M)%R.

(** Each coordinate of [a] is within [tol] of that of [b]. *)
Definition bounds_within (tol : R) (a b : Bounds) : Prop :=
  (Rabs (bounds_min_lon a - bounds_min_lon b) <= tol
   /\ Rabs (bounds_min_lat a - bounds_min_lat b) <= tol
   /\ Rabs (bounds_max_lon a - bounds_max_lon b) <= tol
   /\ Rabs (bounds_max_lat a - bounds_max_lat b) <= tol)%R.

(** A box of 2^-24 degrees (six hundredths of a microdegree); the bounds of
    a square parcel, as decimals and on coordinates that are doubles; and
    a point ten billion degrees away. *)
Definition tiny_bounds : Bounds := (0, 0, pow2 (-24), pow2 (-24))%R.
Definition square_bounds : Bounds := (-119.9, 36.7, -119.8, 36.8)%R.
Definition dyadic_square_bounds : Bounds := (-119.875, 36.75, -119.75, 36.875)%R.
Definition far_bounds : Bounds :=
  (10000000000, 10000000000, 10000000000, 10000000000)%R.



Definition closed_square : list Point := [(1, 1); (2, 1); (2, 2); (1, 2); (1, 1)]%R.





(** A projection at zoom 18 centered on latitude 60 degrees north. *)
Definition northern_projection : MapProjection :=
  {| zoom := 18;
     crop_min_x := 0;
     crop_min_y := 0;
     map_left := 28;
     map_top := 92;
     map_width := 2144;
     map_height := 1350;
     center_lat := 60 |}.

(** What the scale bar needs of the C library's cosine: it is at least
    2^-54 on the doubles up to the radians of 90 degrees, the double just
    under pi / 2, where the cosine is 6.1e-17. *)
Definition cosine_positive (math_cos : R -> R) : Prop :=
  forall x : R, (Rabs x <= B64.radians 90 -> pow2 (-54) <= math_cos x)%R.

(** A stand-in for the library's cosine: the cosine, and 2^-54 where the
    cosine is less. *)
Definition floored_cos (x : R) : R := Rmax (cos x) (pow2 (-54)).

(** The same viewport at zoom 15 on the latitude of Fresno. *)
Definition fresno_projection : MapProjection :=
  {| zoom := 15;
     crop_min_x := 0;
     crop_min_y := 0;
     map_left := 28;
     map_top := 92;
     map_width := 2144;
     map_height := 1350;
     center_lat := 36.75 |}.

(** ** Further definitions: tile keys *)

(** The key [load_tile] builds for an on-world request. *)
Definition cache_key (z x y : Z) : Z * Z * Z := (z, x mod 2 ^ z, y).

(** A key of a tile of the world: a zoom level and a column and a row of
    its grid. *)
Definition on_world (k : Z * Z * Z) : Prop :=
  0 <= fst (fst k) /\ 0 <= snd (fst k) < 2 ^ fst (fst k) /\ 0 <= snd k < 2 ^ fst (fst k).



(** ** Further definitions: rings moved and stripped *)

(** A polygon without its interior rings. *)
Definition strip_holes (poly : json) : json :=
  match poly with
  | JArr (outer :: _ :: _) => JArr [outer]
  | _ => poly
  end.

(** A geometry whose polygons have lost their interior rings. *)
Definition without_holes (g : geometry) : geometry :=
  {| gtype := gtype g;
     coordinates :=
       if gtype_is g "Polygon" then
         match coordinates g with
         | Some poly => Some (strip_holes poly)
         | None => None
         end
       else if gtype_is g "MultiPolygon" then
         match coordinates g with
         | Some (JArr polys) => Some (JArr (map strip_holes polys))
         | other => other
         end
       else coordinates g |}.


(** ** Basemap compositor ([render_basemap]) *)

(** [math.floor] *)
Definition py_floor (x : R) : Z := Int_part x.

(** [range(lo, hi)] *)
Definition py_range (lo hi : Z) : list Z :=
  map (fun i => lo + Z.of_nat i) (seq 0 (Z.to_nat (hi - lo))).

(** [basemap.paste(tile, (px, py))] *)
Record paste : Type := {
  pasted : Image;
  paste_x : Z;
  paste_y : Z
}.

(** Where the tile of column [tx] (row [ty]) is pasted. *)
Definition paste_offset (index : Z) (world_0 : R) : Z :=
  py_round (IZR (index * TILE_SIZE) - world_0).

Section Basemap.

Variable decodable : list Byte.byte -> bool.
Variable net : TileKey -> response.

(** The loop [for ty in range(tile_y_min, tile_y_max + 1)] in column [tx];
    an exception of [load_tile] ends the rendering. *)
Fixpoint render_rows (proj : MapProjection) (tx : Z) (tys : list Z)
    (cache : gmap TileKey (list Byte.byte)) (pastes : list paste)
  : result (list paste) * gmap TileKey (list Byte.byte) * list event :=
  match tys with
  | [] => (Ok pastes, cache, [])
  | ty :: tys' =>
      match load_tile decodable net cache (zoom proj) tx ty with
      | (Raise e, cache1, evs1) => (Raise e, cache1, evs1)
      | (Ok tile, cache1, evs1) =>
          let px := paste_offset tx (crop_min_x proj) in
          let py := paste_offset ty (crop_min_y proj) in
          match render_rows proj tx tys' cache1
                  (pastes ++ [{| pasted := tile; paste_x := px; paste_y := py |}])
          with
          | (r, cache2, evs2) => (r, cache2, evs1 ++ evs2)
          end
      end
  end.

(** The loop [for tx in range(tile_x_min, tile_x_max + 1)]. *)
Fixpoint render_columns (proj : MapProjection) (txs tys : list Z)
    (cache : gmap TileKey (list Byte.byte)) (pastes : list paste)
  : result (list paste) * gmap TileKey (list Byte.byte) * list event :=
  match txs with
  | [] => (Ok pastes, cache, [])
  | tx :: txs' =>
      match render_rows proj tx tys cache pastes with
      | (Raise e, cache1, evs1) => (Raise e, cache1, evs1)
      | (Ok pastes1, cache1, evs1) =>
          match render_columns proj txs' tys cache1 pastes1 with
          | (r, cache2, evs2) => (r, cache2, evs1 ++ evs2)
          end
      end
  end.

(** The tiles pasted, in order, on a gray canvas of the size of the
    viewport; [Image.new] refuses a negative size. *)
Definition render_basemap (proj : MapProjection)
    (cache : gmap TileKey (list Byte.byte))
  : result (list paste) * gmap TileKey (list Byte.byte) * list event :=
  if (map_width proj <? 0) || (map_height proj <? 0) then
    (Raise ValueError, cache, [])
  else
    let world_x0 := crop_min_x proj in
    let world_y0 := crop_min_y proj in
    let world_x1 := (crop_min_x proj + IZR (map_width proj))%R in
    let world_y1 := (crop_min_y proj + IZR (map_height proj))%R in
    let tile_x_min := py_floor (world_x0 / IZR TILE_SIZE) in
    let tile_x_max := py_floor (world_x1 / IZR TILE_SIZE) in
    let tile_y_min := py_floor (world_y0 / IZR TILE_SIZE) in
    let tile_y_max := py_floor (world_y1 / IZR TILE_SIZE) in
    render_columns proj (py_range tile_x_min (tile_x_max + 1))
      (py_range tile_y_min (tile_y_max + 1)) cache [].

End Basemap.







(** A second parcel, on the multipolygon above. *)
Definition triangle_parcel : feature :=
  {| apn := "013-141-034"%string;
     county := "Madera"%string;
     feature_geometry := mixed_multipolygon |}.


(** * Properties *)

(** ** Binary64 rounding *)

Open Scope R_scope.

Lemma pow2_pos (z : Z) : 0 < pow2 z.
Proof. apply powerRZ_lt. lra. Qed.

Lemma pow2_add (a b : Z) : pow2 (a + b) = pow2 a * pow2 b.
Proof. unfold pow2. apply powerRZ_add. lra. Qed.

Lemma pow2_0 : pow2 0 = 1.
Proof. reflexivity. Qed.

Lemma pow2_1 : pow2 1 = 2.
Proof. unfold pow2. simpl. lra. Qed.

Lemma pow2_opp (a : Z) : pow2 (- a) = / pow2 a.
Proof.
  pose proof (pow2_pos a) as Ha. pose proof (pow2_add a (- a)) as H.
  replace (a + - a)%Z with 0%Z in H by lia. rewrite pow2_0 in H.
  apply (Rmult_eq_reg_l (pow2 a)); [| lra]. rewrite Rinv_r; lra.
Qed.

Lemma pow2_cancel (a : Z) : pow2 (- a) * pow2 a = 1.
Proof. rewrite <- pow2_add. replace (- a + a)%Z with 0%Z by lia. reflexivity. Qed.

Lemma pow2_IZR (z : Z) : (0 <= z)%Z -> pow2 z = IZR (2 ^ z).
Proof.
  intros Hz. unfold pow2. rewrite <- (Z2Nat.id z Hz) at 1.
  rewrite <- pow_powerRZ. rewrite <- (Z2Nat.id z Hz) at 2.
  rewrite <- Zpower_nat_Z. 
  induction (Z.to_nat z) as [| n IH]; [reflexivity |].
  rewrite Zpower_nat_succ_r, mult_IZR, <- IH. simpl. reflexivity.
Qed.

Lemma pow2_ge_1 (z : Z) : (0 <= z)%Z -> 1 <= pow2 z.
Proof.
  intros Hz. rewrite (pow2_IZR z Hz). apply IZR_le.
  pose proof (Z.pow_pos_nonneg 2 z). lia.
Qed.

Lemma pow2_le (a b : Z) : (a <= b)%Z -> pow2 a <= pow2 b.
Proof.
  intros Hab. replace b with (a + (b - a))%Z by lia. rewrite pow2_add.
  pose proof (pow2_pos a). pose proof (pow2_ge_1 (b - a)). 
  assert (1 <= pow2 (b - a)) by (apply H0; lia). nra.
Qed.

Lemma pow2_lt (a b : Z) : (a < b)%Z -> pow2 a < pow2 b.
Proof.
  intros Hab. replace b with (a + 1 + (b - a - 1))%Z by lia. rewrite !pow2_add.
  pose proof (pow2_pos a). 
  assert (1 <= pow2 (b - a - 1)) by (apply pow2_ge_1; lia).
  change (pow2 1) with (2 * 1). nra.
Qed.

Lemma pow2_lt_inv (a b : Z) : pow2 a < pow2 b -> (a < b)%Z.
Proof.
  intros H. destruct (Z_lt_le_dec a b) as [Hlt | Hge]; [exact Hlt |].
  pose proof (pow2_le b a Hge). lra.
Qed.

(** py_round *)
Lemma py_round_near (x : R) : (x - 1 / 2 <= IZR (py_round x) <= x + 1 / 2)%R.
Proof.
  unfold py_round. pose proof (base_Int_part x) as [Hlo Hhi].
  destruct (Rlt_dec _ _) as [H1 | H1]; [lra |].
  destruct (Rlt_dec _ _) as [H2 | H2]; [rewrite plus_IZR; lra |].
  destruct (Z.even _); [| rewrite plus_IZR]; lra.
Qed.

Lemma py_round_unique (x : R) (n : Z) :
  Rabs (x - IZR n) < 1 / 2 -> py_round x = n.
Proof.
  intros H. pose proof (py_round_near x) as Hn.
  apply Rabs_def2 in H. 
  assert (Hlt : (py_round x - n < 1)%Z) by (apply lt_IZR; rewrite minus_IZR; lra).
  assert (Hgt : (-1 < py_round x - n)%Z) by (apply lt_IZR; rewrite minus_IZR; lra).
  lia.
Qed.

Lemma py_round_IZR (n : Z) : py_round (IZR n) = n.
Proof.
  apply py_round_unique. replace (IZR n - IZR n) with 0 by lra.
  rewrite Rabs_R0. lra.
Qed.

Lemma Int_part_le (x y : R) : x <= y -> (Int_part x <= Int_part y)%Z.
Proof.
  intros Hxy. pose proof (base_Int_part x) as [Hx _].
  pose proof (base_Int_part y) as [_ Hy].
  assert (H : (Int_part x - Int_part y < 1)%Z) by (apply lt_IZR; rewrite minus_IZR; lra).
  lia.
Qed.

Lemma py_round_cases (x : R) :
  py_round x = Int_part x \/ py_round x = (Int_part x + 1)%Z.
Proof.
  unfold py_round. destruct (Rlt_dec _ _); [auto |].
  destruct (Rlt_dec _ _); [auto |]. destruct (Z.even _); auto.
Qed.

Lemma py_round_mono (x y : R) : x <= y -> (py_round x <= py_round y)%Z.
Proof.
  intros Hxy. pose proof (Int_part_le x y Hxy) as Hf.
  destruct (Z.eq_dec (Int_part x) (Int_part y)) as [Heq | Hne].
  - unfold py_round. rewrite Heq.
    repeat (destruct (Rlt_dec _ _)); try lra; try lia; destruct (Z.even _); lia.
  - destruct (py_round_cases x) as [-> | ->];
      destruct (py_round_cases y) as [-> | ->]; lia.
Qed.

Lemma py_round_opp (x : R) : py_round (- x) = (- py_round x)%Z.
Proof.
  pose proof (base_Int_part x) as [Hlo Hhi].
  destruct (Req_dec x (IZR (Int_part x))) as [Hint | Hfrac].
  - rewrite Hint, <- opp_IZR, !py_round_IZR. reflexivity.
  - assert (Hf : Int_part (- x) = (- Int_part x - 1)%Z).
    { symmetry. apply Int_part_spec. rewrite minus_IZR, opp_IZR. lra. }
    unfold py_round. rewrite Hf, minus_IZR, opp_IZR.
    replace (Z.even (- Int_part x - 1)) with (negb (Z.even (Int_part x))).
    2:{ replace (- Int_part x - 1)%Z with (- (Int_part x + 1))%Z by lia.
        rewrite Z.even_opp, Z.even_add. simpl.
        destruct (Z.even (Int_part x)); reflexivity. }
    destruct (Rlt_dec (x - _) _) as [Hx1 | Hx1].
    + destruct (Rlt_dec _ _) as [H1 | H1]; [lra |].
      destruct (Rlt_dec _ _) as [H2 | H2]; [lia | lra].
    + destruct (Rlt_dec _ (x - _)) as [Hx2 | Hx2].
      * destruct (Rlt_dec _ _) as [H1 | H1]; [lia | lra].
      * destruct (Rlt_dec _ _) as [H1 | H1]; [lra |].
        destruct (Rlt_dec _ _) as [H2 | H2]; [lra |].
        destruct (Z.even (Int_part x)); simpl; lia.
Qed.

(** mag *)
Lemma ln_2_pos : 0 < ln 2.
Proof. rewrite <- ln_1. apply ln_increasing; lra. Qed.

Lemma pow2_exp (k : Z) : pow2 k = exp (IZR k * ln 2).
Proof.
  unfold pow2. rewrite powerRZ_Rpower by lra. reflexivity.
Qed.

Lemma mag_spec (x : R) :
  x <> 0 -> pow2 (mag x - 1) <= Rabs x < pow2 (mag x).
Proof.
  intros Hx. assert (Hpos : 0 < Rabs x) by (apply Rabs_pos_lt; exact Hx).
  unfold mag. set (t := ln (Rabs x) / ln 2).
  pose proof (base_Int_part t) as [Hlo Hhi]. pose proof ln_2_pos as Hln.
  replace (Int_part t + 1 - 1)%Z with (Int_part t) by lia.
  rewrite !pow2_exp, plus_IZR.
  assert (Ht : exp (t * ln 2) = Rabs x).
  { replace (t * ln 2) with (ln (Rabs x)) by (unfold t; field; lra).
    apply exp_ln, Hpos. }
  rewrite <- Ht. split.
  - destruct (Req_dec (IZR (Int_part t)) t) as [-> | Hne]; [lra |].
    left. apply exp_increasing. nra.
  - apply exp_increasing. nra.
Qed.

Lemma mag_unique (x : R) (e : Z) :
  pow2 (e - 1) <= Rabs x < pow2 e -> mag x = e.
Proof.
  intros [Hlo Hhi]. assert (Hx : x <> 0).
  { intros ->. rewrite Rabs_R0 in Hlo. pose proof (pow2_pos (e - 1)). lra. }
  pose proof (mag_spec x Hx) as [Hlo' Hhi'].
  assert (mag x - 1 < e)%Z by (apply pow2_lt_inv; lra).
  assert (e - 1 < mag x)%Z by (apply pow2_lt_inv; lra).
  lia.
Qed.

Lemma mag_below (x : R) (e : Z) : x <> 0 -> Rabs x < pow2 e -> (mag x <= e)%Z.
Proof.
  intros Hx Hlt. pose proof (mag_spec x Hx) as [Hlo _].
  assert (mag x - 1 < e)%Z by (apply pow2_lt_inv; lra). lia.
Qed.

Lemma mag_above (x : R) (e : Z) : pow2 e <= Rabs x -> (e < mag x)%Z.
Proof.
  intros Hle. assert (Hx : x <> 0).
  { intros ->. rewrite Rabs_R0 in Hle. pose proof (pow2_pos e). lra. }
  pose proof (mag_spec x Hx) as [_ Hhi]. apply pow2_lt_inv. lra.
Qed.

Lemma mag_opp (x : R) : mag (- x) = mag x.
Proof. unfold mag. rewrite Rabs_Ropp. reflexivity. Qed.

Lemma fexp_opp (x : R) : fexp (- x) = fexp x.
Proof. unfold fexp. rewrite mag_opp. reflexivity. Qed.

(** rnd *)
Lemma rnd_0 : rnd 0 = 0.
Proof.
  unfold rnd. rewrite Rmult_0_l. change 0 with (IZR 0) at 1.
  rewrite py_round_IZR. lra.
Qed.

Lemma rnd_opp (x : R) : rnd (- x) = - rnd x.
Proof.
  unfold rnd. rewrite fexp_opp.
  replace (- x * pow2 (- fexp x)) with (- (x * pow2 (- fexp x))) by lra.
  rewrite py_round_opp, opp_IZR. lra.
Qed.

Lemma rnd_abs_err (x : R) : Rabs (rnd x - x) <= pow2 (fexp x) / 2.
Proof.
  unfold rnd. set (e := fexp x).
  pose proof (py_round_near (x * pow2 (- e))) as [Hlo Hhi].
  pose proof (pow2_pos e) as He. pose proof (pow2_cancel e) as Hc.
  apply Rabs_le. 
  assert (Hx : x = x * pow2 (- e) * pow2 e) by (rewrite Rmult_assoc, Hc; lra).
  split; nra.
Qed.

Lemma rnd_err_below (x : R) (e : Z) :
  (-1021 <= e)%Z -> Rabs x < pow2 e -> Rabs (rnd x - x) <= pow2 (e - 54).
Proof.
  intros He Hx. destruct (Req_dec x 0) as [-> | Hne].
  - rewrite rnd_0. replace (0 - 0) with 0 by lra. rewrite Rabs_R0.
    left. apply pow2_pos.
  - pose proof (rnd_abs_err x) as Herr.
    pose proof (mag_below x e Hne Hx) as Hmag.
    assert (Hf : (fexp x <= e - 53)%Z) by (unfold fexp; lia).
    pose proof (pow2_le _ _ Hf) as Hp.
    replace (e - 53)%Z with (e - 54 + 1)%Z in Hp by lia.
    rewrite pow2_add in Hp. rewrite pow2_1 in Hp. lra.
Qed.

Lemma rnd_rel_err (x : R) :
  pow2 (-1022) <= Rabs x -> Rabs (rnd x - x) <= pow2 (-53) * Rabs x.
Proof.
  intros Hx. pose proof (mag_above x _ Hx) as Hmag.
  assert (Hne : x <> 0).
  { intros ->. rewrite Rabs_R0 in Hx. pose proof (pow2_pos (-1022)). lra. }
  pose proof (mag_spec x Hne) as [Hlo _].
  pose proof (rnd_abs_err x) as Herr.
  assert (Hf : fexp x = (-53 + (mag x - 1) + 1)%Z) by (unfold fexp; lia).
  rewrite Hf, !pow2_add in Herr. rewrite pow2_1 in Herr.
  pose proof (pow2_pos (-53)). nra.
Qed.

Lemma rnd_err (x : R) :
  Rabs (rnd x - x) <= pow2 (-53) * Rabs x + pow2 (-1075).
Proof.
  destruct (Rle_lt_dec (pow2 (-1022)) (Rabs x)) as [Hn | Hs].
  - pose proof (rnd_rel_err x Hn). pose proof (pow2_pos (-1075)). lra.
  - pose proof (rnd_err_below x (-1021)) as H.
    assert (Rabs x < pow2 (-1021)).
    { assert (pow2 (-1022) < pow2 (-1021)) by (apply pow2_lt; lia). lra. }
    replace (-1021 - 54)%Z with (-1075)%Z in H by lia.
    pose proof (pow2_pos (-53)). pose proof (Rabs_pos x).
    assert (Rabs (rnd x - x) <= pow2 (-1075)) by (apply H; [lia | assumption]).
    nra.
Qed.

Lemma rnd_scaled (x : R) (n : Z) :
  x * pow2 (- fexp x) = IZR n -> rnd x = x.
Proof.
  intros H. unfold rnd. rewrite H, py_round_IZR, <- H.
  rewrite Rmult_assoc, pow2_cancel. lra.
Qed.

(** Doubles round to themselves. *)
Lemma rnd_exact (m e : Z) :
  (Z.abs m < 2 ^ 53)%Z -> (-1074 <= e)%Z ->
  rnd (IZR m * pow2 e) = IZR m * pow2 e.
Proof.
  intros Hm He. destruct (Z.eq_dec m 0%Z) as [-> | Hm0].
  - rewrite Rmult_0_l. apply rnd_0.
  - set (x := IZR m * pow2 e).
    pose proof (pow2_pos e) as Hpe.
    assert (Hx : x <> 0).
    { unfold x. apply Rmult_integral_contrapositive_currified; [| lra].
      apply not_0_IZR. exact Hm0. }
    assert (Habs : Rabs x < pow2 (e + 53)).
    { unfold x. rewrite Rabs_mult, (Rabs_pos_eq (pow2 e)) by lra.
      rewrite <- abs_IZR, Rmult_comm, pow2_add. 
      apply Rmult_lt_compat_l; [exact Hpe |].
      rewrite (pow2_IZR 53) by lia. apply IZR_lt. exact Hm. }
    pose proof (mag_below x _ Hx Habs) as Hmag.
    assert (Hf : (fexp x <= e)%Z) by (unfold fexp; lia).
    apply (rnd_scaled x (m * 2 ^ (e - fexp x))).
    subst x. rewrite mult_IZR, <- pow2_IZR by lia.
    rewrite Rmult_assoc, <- pow2_add. repeat f_equal; lia.
Qed.

Lemma rnd_IZR (n : Z) : (Z.abs n <= 2 ^ 53)%Z -> rnd (IZR n) = IZR n.
Proof.
  intros Hn. destruct (Z.eq_dec (Z.abs n) (2 ^ 53)%Z) as [Heq | Hne].
  - assert (Hn2 : n = (n / 2 * 2)%Z).
    { assert (n = 2 ^ 53 \/ n = - 2 ^ 53)%Z as [-> | ->] by lia; reflexivity. }
    rewrite Hn2 at 1 2. rewrite mult_IZR, <- pow2_1.
    apply rnd_exact; [| lia].
    assert (n = 2 ^ 53 \/ n = - 2 ^ 53)%Z as [-> | ->] by lia; reflexivity.
  - replace (IZR n) with (IZR n * pow2 0) by (rewrite pow2_0; lra).
    apply rnd_exact; lia.
Qed.

Lemma rnd_pow2 (k : Z) : (-1074 <= k)%Z -> rnd (pow2 k) = pow2 k.
Proof.
  intros Hk. replace (pow2 k) with (IZR 1 * pow2 k) by lra.
  apply rnd_exact; [reflexivity | exact Hk].
Qed.

Lemma fexp_binade (x : R) (e : Z) :
  (-1074 <= e)%Z -> pow2 (e + 52) <= Rabs x < pow2 (e + 53) -> fexp x = e.
Proof.
  intros He Hx. unfold fexp. rewrite (mag_unique x (e + 53)); [lia |].
  replace (e + 53 - 1)%Z with (e + 52)%Z by lia. exact Hx.
Qed.

(** A real in the binade of exponent [e], closer than half a unit in the
    last place to [m * 2^e], rounds to it. *)
Lemma rnd_nearest (x : R) (m e : Z) :
  (-1074 <= e)%Z -> pow2 (e + 52) <= Rabs x < pow2 (e + 53) ->
  Rabs (x * pow2 (- e) - IZR m) < 1 / 2 ->
  rnd x = IZR m * pow2 e.
Proof.
  intros He Hx Hm. unfold rnd. rewrite (fexp_binade x e He Hx).
  rewrite (py_round_unique _ m Hm). reflexivity.
Qed.

Lemma rnd_nonneg (x : R) : 0 <= x -> 0 <= rnd x.
Proof.
  intros Hx. unfold rnd. apply Rmult_le_pos; [| left; apply pow2_pos].
  apply IZR_le. rewrite <- (py_round_IZR 0). apply py_round_mono.
  apply Rmult_le_pos; [exact Hx | left; apply pow2_pos].
Qed.

Lemma mag_le (x y : R) : 0 < x <= y -> (mag x <= mag y)%Z.
Proof.
  intros [Hx Hxy]. 
  pose proof (mag_spec x ltac:(lra)) as [Hlo _].
  pose proof (mag_spec y ltac:(lra)) as [_ Hhi].
  rewrite Rabs_pos_eq in Hlo, Hhi by lra.
  assert (mag x - 1 < mag y)%Z by (apply pow2_lt_inv; lra). lia.
Qed.

Lemma rnd_mono_pos (x y : R) : 0 < x <= y -> rnd x <= rnd y.
Proof.
  intros [Hx Hxy]. pose proof (mag_le x y (conj Hx Hxy)) as Hmag.
  destruct (Z.eq_dec (fexp x) (fexp y)) as [Heq | Hne].
  - unfold rnd. rewrite Heq. pose proof (pow2_pos (fexp y)).
    pose proof (pow2_pos (- fexp y)).
    apply Rmult_le_compat_r; [lra |]. apply IZR_le, py_round_mono.
    apply Rmult_le_compat_r; lra.
  - assert (Hfy : fexp y = (mag y - 53)%Z) by (unfold fexp in *; lia).
    assert (Hfx : (fexp x < fexp y)%Z) by (unfold fexp in *; lia).
    assert (Hmx : (mag x <= mag y - 1)%Z) by (unfold fexp in *; lia).
    pose proof (mag_spec x ltac:(lra)) as [_ Hxhi].
    pose proof (mag_spec y ltac:(lra)) as [Hylo _].
    rewrite Rabs_pos_eq in Hxhi, Hylo by lra.
    apply Rle_trans with (pow2 (mag y - 1)).
    + unfold rnd. set (fx := fexp x) in *.
      pose proof (pow2_pos fx) as Hpx. pose proof (pow2_pos (- fx)) as Hpnx.
      set (d := (mag y - 1 - fx)%Z).
      assert (Hd : (0 <= d)%Z) by (unfold d; lia).
      replace (pow2 (mag y - 1)) with (IZR (2 ^ d) * pow2 fx).
      2:{ rewrite <- pow2_IZR, <- pow2_add by exact Hd. f_equal. unfold d. lia. }
      apply Rmult_le_compat_r; [lra |]. apply IZR_le.
      rewrite <- (py_round_IZR (2 ^ d)). apply py_round_mono.
      rewrite <- pow2_IZR by exact Hd. unfold d.
      replace (mag y - 1 - fx)%Z with (mag y - 1 + - fx)%Z by lia.
      rewrite pow2_add. apply Rmult_le_compat_r; [lra |].
      pose proof (pow2_le _ _ Hmx). lra.
    + unfold rnd. rewrite Hfy.
      pose proof (pow2_pos (mag y - 53)) as Hpy.
      pose proof (pow2_pos (- (mag y - 53))) as Hpny.
      replace (pow2 (mag y - 1)) with (IZR (2 ^ 52) * pow2 (mag y - 53)).
      2:{ rewrite <- pow2_IZR, <- pow2_add by lia. f_equal. lia. }
      apply Rmult_le_compat_r; [lra |]. apply IZR_le.
      rewrite <- (py_round_IZR (2 ^ 52)). apply py_round_mono.
      rewrite <- pow2_IZR by lia.
      replace 52%Z with (mag y - 1 + - (mag y - 53))%Z at 1 by lia.
      rewrite pow2_add. apply Rmult_le_compat_r; lra.
Qed.

(** Rounding to nearest keeps the order. *)
Lemma rnd_mono (x y : R) : x <= y -> rnd x <= rnd y.
Proof.
  intros Hxy. destruct (Rlt_le_dec 0 x) as [Hx | Hx].
  - apply rnd_mono_pos. lra.
  - destruct (Rle_lt_dec 0 y) as [Hy | Hy].
    + apply Rle_trans with 0; [| apply rnd_nonneg; exact Hy].
      apply Ropp_le_cancel. rewrite <- rnd_opp, Ropp_0. apply rnd_nonneg. lra.
    + apply Ropp_le_cancel. rewrite <- !rnd_opp. apply rnd_mono_pos. lra.
Qed.


Lemma pow2_neg_IZR (p : positive) : pow2 (Z.neg p) = / IZR (2 ^ Z.pos p).
Proof.
  change (Z.neg p) with (- Z.pos p)%Z. rewrite pow2_opp, pow2_IZR by lia. reflexivity.
Qed.

Lemma pow2_pos_IZR (p : positive) : pow2 (Z.pos p) = IZR (2 ^ Z.pos p).
Proof. apply pow2_IZR. lia. Qed.

Ltac is_Z_literal a :=
  match a with
  | Z0 => idtac
  | Zpos _ => idtac
  | Zneg _ => idtac
  end.

(** Turn the powers of two with literal exponents into numerals. *)
Ltac pow2_num :=
  repeat match goal with
  | |- context [pow2 (?a + ?b)] =>
      is_Z_literal a; is_Z_literal b;
      let v := eval vm_compute in (a + b)%Z in
      change (pow2 (a + b)) with (pow2 v)
  | |- context [pow2 (- ?a)] =>
      is_Z_literal a;
      let v := eval vm_compute in (- a)%Z in
      change (pow2 (- a)) with (pow2 v)
  | |- context [pow2 0] => rewrite pow2_0
  | H : context [pow2 0] |- _ => rewrite pow2_0 in H
  | |- context [pow2 (Z.neg ?p)] =>
      let v := eval vm_compute in (2 ^ Z.pos p)%Z in
      rewrite (pow2_neg_IZR p); change (2 ^ Z.pos p)%Z with v
  | |- context [pow2 (Z.pos ?p)] =>
      let v := eval vm_compute in (2 ^ Z.pos p)%Z in
      rewrite (pow2_pos_IZR p); change (2 ^ Z.pos p)%Z with v
  | H : context [pow2 (Z.neg ?p)] |- _ =>
      let v := eval vm_compute in (2 ^ Z.pos p)%Z in
      rewrite (pow2_neg_IZR p) in H; change (2 ^ Z.pos p)%Z with v in H
  | H : context [pow2 (Z.pos ?p)] |- _ =>
      let v := eval vm_compute in (2 ^ Z.pos p)%Z in
      rewrite (pow2_pos_IZR p) in H; change (2 ^ Z.pos p)%Z with v in H
  end.

Lemma Rabs_le_inv (x a : R) : Rabs x <= a -> - a <= x <= a.
Proof. unfold Rabs. destruct (Rcase_abs x); lra. Qed.

Lemma rnd_le_IZR (x : R) (n : Z) :
  (Z.abs n <= 2 ^ 53)%Z -> x <= IZR n -> rnd x <= IZR n.
Proof. intros Hn Hx. rewrite <- (rnd_IZR n Hn). apply rnd_mono, Hx. Qed.

Lemma rnd_ge_IZR (x : R) (n : Z) :
  (Z.abs n <= 2 ^ 53)%Z -> IZR n <= x -> IZR n <= rnd x.
Proof. intros Hn Hx. rewrite <- (rnd_IZR n Hn). apply rnd_mono, Hx. Qed.


Lemma rnd_ge_pow2 (x : R) (k : Z) :
  (-1074 <= k)%Z -> pow2 k <= x -> pow2 k <= rnd x.
Proof. intros Hk Hx. rewrite <- (rnd_pow2 k Hk). apply rnd_mono, Hx. Qed.





Close Scope R_scope.

(** ** Tile cache and fetcher *)

Section TileCacheFacts.

Variable decodable : list Byte.byte -> bool.
Variable net : TileKey -> response.

Implicit Types (cache : gmap TileKey (list Byte.byte)) (z x y : Z).

Lemma in_range_test z y :
  in_range z y -> (y <? 0) || (2 ^ z - 1 <? y) = false.
Proof.
  intros [Hlo Hhi]. apply orb_false_intro; apply Z.ltb_ge; lia.
Qed.

Lemma out_of_range_test z y :
  y < 0 \/ y > 2 ^ z - 1 -> (y <? 0) || (2 ^ z - 1 <? y) = true.
Proof.
  intros [H | H]; apply orb_true_iff; [left | right]; apply Z.ltb_lt; lia.
Qed.

(** A fetch that times out or fails in transport leaves the cache as it
    was and yields the error placeholder. *)
Lemma load_tile_no_response cache z x y :
  in_range z y ->
  cache !! (z, x mod 2 ^ z, y) = None ->
  net (z, x mod 2 ^ z, y) = Timeout \/ net (z, x mod 2 ^ z, y) = TransportError ->
  load_tile decodable net cache z x y
  = (Ok error_tile, cache,
     [Makedirs; CacheExists (z, x mod 2 ^ z, y); NetFetch (z, x mod 2 ^ z, y)]).
Proof.
  intros Hr Hmiss Hnet. unfold load_tile.
  rewrite (in_range_test _ _ Hr). cbv zeta. rewrite Hmiss.
  destruct Hnet as [-> | ->]; reflexivity.
Qed.

(** A body that does not decode is in the cache when the call returns. *)
Lemma load_tile_undecodable_body cache z x y data :
  in_range z y ->
  cache !! (z, x mod 2 ^ z, y) = None ->
  net (z, x mod 2 ^ z, y) = Body data ->
  decodable data = false ->
  load_tile decodable net cache z x y
  = (Ok error_tile, <[(z, x mod 2 ^ z, y) := data]> cache,
     [Makedirs; CacheExists (z, x mod 2 ^ z, y); NetFetch (z, x mod 2 ^ z, y);
      CacheWrite (z, x mod 2 ^ z, y) data]).
Proof.
  intros Hr Hmiss Hnet Hdec. unfold load_tile.
  rewrite (in_range_test _ _ Hr). cbv zeta. rewrite Hmiss, Hnet, Hdec.
  reflexivity.
Qed.

(** A cached file that does not decode makes the call raise, whatever the
    network would answer. *)
Lemma load_tile_undecodable_file cache z x y stored :
  in_range z y ->
  cache !! (z, x mod 2 ^ z, y) = Some stored ->
  decodable stored = false ->
  load_tile decodable net cache z x y
  = (Raise UnidentifiedImageError, cache,
     [Makedirs; CacheExists (z, x mod 2 ^ z, y); CacheRead (z, x mod 2 ^ z, y)]).
Proof.
  intros Hr Hhit Hdec. unfold load_tile.
  rewrite (in_range_test _ _ Hr). cbv zeta. rewrite Hhit, Hdec.
  reflexivity.
Qed.

(** After a fetch without a response the next call for the same tile goes
    to the network again, and caches what it gets. *)
Lemma load_tile_retries_after_no_response cache z x y data :
  in_range z y ->
  cache !! (z, x mod 2 ^ z, y) = None ->
  net (z, x mod 2 ^ z, y) = Timeout \/ net (z, x mod 2 ^ z, y) = TransportError ->
  decodable data = true ->
  load_tile decodable (fun _ => Body data)
    (snd (fst (load_tile decodable net cache z x y))) z x y
  = (Ok (Image_open data), <[(z, x mod 2 ^ z, y) := data]> cache,
     [Makedirs; CacheExists (z, x mod 2 ^ z, y); NetFetch (z, x mod 2 ^ z, y);
      CacheWrite (z, x mod 2 ^ z, y) data]).
Proof.
  intros Hr Hmiss Hnet Hdec.
  rewrite (load_tile_no_response cache z x y Hr Hmiss Hnet). cbn [fst snd].
  unfold load_tile. rewrite (in_range_test _ _ Hr). cbv zeta.
  rewrite Hmiss, Hdec. reflexivity.
Qed.

(** C4. For every zoom [z] and every integer [y] with [y < 0] or
    [y > 2^z - 1], [load_tile] returns the neutral-gray placeholder, leaves
    the cache as it was, and none of its effects is a cache access or a
    network call (it only makes sure the cache directory exists). *)
Theorem load_tile_off_world cache z x y :
  y < 0 \/ y > 2 ^ z - 1 ->
  load_tile decodable net cache z x y = (Ok gray_tile, cache, [Makedirs])
  /\ Forall (fun e => is_cache_access e = false /\ is_network_call e = false)
       (snd (load_tile decodable net cache z x y)).
Proof.
  intros H. unfold load_tile. rewrite (out_of_range_test _ _ H).
  split; [reflexivity |]. repeat constructor.
Qed.

End TileCacheFacts.

Lemma load_tile_off_world_witness :
  (-1 < 0 \/ -1 > 2 ^ 12 - 1)
  /\ load_tile has_png_signature (fun _ => Timeout) ∅ 12 7 (-1)
     = (Ok gray_tile, ∅, [Makedirs])
  /\ Forall (fun e => is_cache_access e = false /\ is_network_call e = false)
       (snd (load_tile has_png_signature (fun _ => Timeout) ∅ 12 7 (-1))).
Proof.
  assert (H : -1 < 0 \/ -1 > 2 ^ 12 - 1) by (left; lia).
  split; [exact H |].
  exact (load_tile_off_world has_png_signature (fun _ => Timeout) ∅ 12 7 (-1) H).
Defined.

(** C1, on the code. The tile (10, 0, 0) is not cached and the server
    answers with bytes that are no image. The call returns the error
    placeholder, and the bytes are in the cache afterwards; the next call
    for the same key, with the server now sending an image, does not reach
    the network: it reads the cached file and raises. *)
Theorem load_tile_decode_error_is_cached :
  load_tile has_png_signature (fun _ => Body html_page) ∅ 10 0 0
  = (Ok error_tile, {[ (10, 0, 0) := html_page ]},
     [Makedirs; CacheExists (10, 0, 0); NetFetch (10, 0, 0);
      CacheWrite (10, 0, 0) html_page])
  /\ load_tile has_png_signature (fun _ => Body png_signature)
       {[ (10, 0, 0) := html_page ]} 10 0 0
     = (Raise UnidentifiedImageError, {[ (10, 0, 0) := html_page ]},
        [Makedirs; CacheExists (10, 0, 0); CacheRead (10, 0, 0)]).
Proof.
  split.
  - apply load_tile_undecodable_body; [unfold in_range; lia | | |]; reflexivity.
  - apply (load_tile_undecodable_file _ _ _ 10 0 0 html_page);
      [unfold in_range; lia | |]; reflexivity.
Qed.

(** C2, on the code. With a cache file for (12, 5, 9) whose bytes do not
    decode, [load_tile 12 5 9] raises instead of returning a tile; so does
    the call for x = 5 + 4096, which wraps to the same key. *)
Theorem load_tile_raises_on_corrupt_cache_file :
  fst (fst (load_tile has_png_signature (fun _ => Timeout)
              {[ (12, 5, 9) := html_page ]} 12 5 9))
  = Raise UnidentifiedImageError
  /\ fst (fst (load_tile has_png_signature (fun _ => Body png_signature)
                 {[ (12, 5, 9) := html_page ]} 12 4101 9))
     = Raise UnidentifiedImageError.
Proof.
  split.
  - rewrite (load_tile_undecodable_file _ _ _ 12 5 9 html_page);
      [reflexivity | unfold in_range; lia | reflexivity | reflexivity].
  - rewrite (load_tile_undecodable_file _ _ _ 12 4101 9 html_page);
      [reflexivity | unfold in_range; lia | reflexivity | reflexivity].
Qed.

(** ** Ring extraction *)

Lemma gtype_is_false (g : geometry) (name : string) :
  gtype g <> Some name -> gtype_is g name = false.
Proof.
  unfold gtype_is. destruct (gtype g) as [t |]; [| reflexivity].
  intros Hne. apply String.eqb_neq. congruence.
Qed.

Lemma to_float_number (x : json) :
  is_number x = true -> to_float x = Ok (number_value x).
Proof.
  destruct x as [| f | n | items]; simpl; try discriminate; [reflexivity |].
  intros ->. reflexivity.
Qed.

Lemma position_shaped (x : json) :
  is_position x = true -> position x = Ok (position_value x).
Proof.
  destruct x as [| f | n | [| lon [| lat [|]]]]; simpl; try discriminate.
  intros H. apply andb_prop in H as [Hlon Hlat]. unfold position.
  cbn [unpack2 bind]. rewrite (to_float_number lon Hlon), (to_float_number lat Hlat).
  reflexivity.
Qed.

Lemma mapM_position_shaped (outer : list json) :
  forallb is_position outer = true ->
  mapM position outer = Ok (map position_value outer).
Proof.
  induction outer as [| x outer IH]; simpl; [reflexivity |].
  intros H. apply andb_prop in H as [Hx Houter].
  rewrite (position_shaped x Hx). cbn [bind].
  rewrite (IH Houter). reflexivity.
Qed.

(** On shaped polygons the loop appends the kept rings, in order. *)
Lemma outer_rings_loop_shaped (polys : list json) (rings : list Ring) :
  forallb polygon_shaped polys = true ->
  outer_rings_loop polys rings = Ok (rings ++ flat_map kept_ring polys).
Proof.
  revert rings. induction polys as [| poly polys IH]; intros rings H.
  - simpl. rewrite app_nil_r. reflexivity.
  - simpl in H. apply andb_prop in H as [Hpoly Hpolys].
    destruct poly as [| f | n | [| [| f | n | outer] rest]];
      simpl in Hpoly; try discriminate.
    + simpl. apply IH, Hpolys.
    + simpl. apply IH, Hpolys.
    + cbn [outer_rings_loop truthy negb index0 iter bind flat_map kept_ring].
      rewrite (mapM_position_shaped outer Hpoly).
      cbn [bind]. rewrite length_map.
      destruct (3 <=? length outer)%nat.
      * rewrite (IH _ Hpolys). rewrite <- app_assoc. reflexivity.
      * apply IH, Hpolys.
Qed.

(** Whatever the loop is given, it only ever appends rings of three points
    or more. *)
Lemma outer_rings_loop_lengths (polys : list json) :
  forall acc rings : list Ring,
    Forall (fun ring => (3 <= length ring)%nat) acc ->
    outer_rings_loop polys acc = Ok rings ->
    Forall (fun ring => (3 <= length ring)%nat) rings.
Proof.
  induction polys as [| poly polys IH]; intros acc rings Hacc Hrun.
  - simpl in Hrun. injection Hrun as <-. exact Hacc.
  - cbn [outer_rings_loop] in Hrun. destruct (truthy poly); cbn [negb] in Hrun.
    + destruct (index0 poly) as [outer | e]; cbn [bind] in Hrun; [| discriminate].
      destruct (iter outer) as [items | e]; cbn [bind] in Hrun; [| discriminate].
      destruct (mapM position items) as [ring | e]; cbn [bind] in Hrun;
        [| discriminate].
      destruct (3 <=? length ring)%nat eqn:Hlen.
      * apply (IH (acc ++ [ring]) rings); [| exact Hrun].
        apply Forall_app. split; [exact Hacc |].
        constructor; [| constructor]. apply Nat.leb_le. exact Hlen.
      * apply (IH acc rings Hacc Hrun).
    + apply (IH acc rings Hacc Hrun).
Qed.

(** The function is not total on geometry dictionaries: a polygon whose
    positions have three members makes the unpacking raise, and a position
    with an integer beyond the doubles makes [float] raise. *)
Lemma polygon_outer_rings_is_partial :
  polygon_outer_rings polygon_with_altitudes = Raise ValueError
  /\ polygon_outer_rings polygon_with_huge_integer = Raise OverflowError.
Proof. split; reflexivity. Qed.

(** An integer coordinate is returned as the nearest double. *)
Example polygon_outer_rings_converts_integers :
  well_shaped polygon_with_integers = true
  /\ polygon_outer_rings polygon_with_integers
     = Ok [[(Fin 9007199254740992, Fin 0); (Fin 1, Fin 0); (Fin 1, Fin 1);
            (Fin 9007199254740992, Fin 0)]]%R.
Proof. split; reflexivity. Qed.

(** Every ring [polygon_outer_rings] returns has three vertices or more. *)
Lemma polygon_outer_rings_lengths (g : geometry) (rings : list Ring) :
  polygon_outer_rings g = Ok rings ->
  Forall (fun ring => (3 <= length ring)%nat) rings.
Proof.
  unfold polygon_outer_rings.
  destruct (gtype_is g "Polygon").
  - apply outer_rings_loop_lengths. constructor.
  - destruct (gtype_is g "MultiPolygon").
    + destruct (iter _) as [polys | e]; simpl; [| discriminate].
      apply outer_rings_loop_lengths. constructor.
    + intros H. injection H as <-. constructor.
Qed.

(** C10, amended. For a geometry whose type is neither Polygon nor
    MultiPolygon, [polygon_outer_rings] returns the empty list, whatever
    the coordinates, and signals no error. For a Polygon or MultiPolygon
    whose coordinates have the announced shape (every sub-polygon is empty
    or null, or starts with a list of positions; a position is a list of
    exactly two numbers; a number is a float, or an int of magnitude below
    2^1024 - 2^970, which [float] converts) it returns, without raising,
    the outer rings of three points or more, in order, each number as the
    float [float] gives: empty sub-polygons and shorter outer rings are
    dropped. Every ring it returns has at least three vertices. *)
Theorem polygon_outer_rings_on_shaped (g : geometry) :
  (gtype g <> Some "Polygon"%string -> gtype g <> Some "MultiPolygon"%string ->
   polygon_outer_rings g = Ok [])
  /\ (well_shaped g = true ->
      polygon_outer_rings g = Ok (flat_map kept_ring (polygons_of g)))
  /\ (forall rings, polygon_outer_rings g = Ok rings ->
      Forall (fun ring => (3 <= length ring)%nat) rings).
Proof.
  split; [| split].
  - intros HP HM. unfold polygon_outer_rings.
    rewrite (gtype_is_false g _ HP), (gtype_is_false g _ HM). reflexivity.
  - unfold well_shaped, polygon_outer_rings, polygons_of.
    destruct (gtype_is g "Polygon").
    + intros H. apply (outer_rings_loop_shaped [_] []).
      simpl. rewrite H. reflexivity.
    + destruct (gtype_is g "MultiPolygon"); [| reflexivity].
      destruct (match coordinates g with Some c => c | None => JArr [] end)
        as [| f | n | polys]; try discriminate.
      intros H. apply (outer_rings_loop_shaped polys [] H).
  - intros rings. apply polygon_outer_rings_lengths.
Qed.

Lemma polygon_outer_rings_on_shaped_witness :
  well_shaped mixed_multipolygon = true
  /\ polygon_outer_rings mixed_multipolygon
     = Ok [[(Fin 0, Fin 0); (Fin 4, Fin 0); (Fin 0, Fin 4); (Fin 0, Fin 0)]]
  /\ Forall (fun ring => (3 <= length ring)%nat)
       [[(Fin 0, Fin 0); (Fin 4, Fin 0); (Fin 0, Fin 4); (Fin 0, Fin 0)]]%R.
Proof.
  assert (Hshape : well_shaped mixed_multipolygon = true) by reflexivity.
  destruct (polygon_outer_rings_on_shaped mixed_multipolygon) as (_ & Hrun & Hlen).
  split; [exact Hshape |].
  split; [exact (Hrun Hshape) |].
  exact (Hlen _ (Hrun Hshape)).
Defined.

(** ** Bounds calculator: [collect_bounds] *)

Lemma fold_track_components (vs : list (pyfloat * pyfloat)) :
  forall a c b d : pyfloat,
    fold_left track vs (a, c, b, d)
    = (fold_left pymin (map fst vs) a, fold_left pymax (map fst vs) c,
       fold_left pymin (map snd vs) b, fold_left pymax (map snd vs) d).
Proof.
  induction vs as [| [lon lat] vs IH]; intros a c b d; simpl; [reflexivity |].
  apply IH.
Qed.

Lemma fold_rings_concat (rings : list Ring) (acc : extent) :
  fold_left (fun acc' ring => fold_left track ring acc') rings acc
  = fold_left track (concat rings) acc.
Proof.
  revert acc. induction rings as [| ring rings IH]; intros acc; simpl.
  - reflexivity.
  - rewrite fold_left_app. apply IH.
Qed.

(** The three nested loops visit the vertices of all rings in order. *)
Lemma collect_loop_all_rings (feature_items : list feature) :
  forall (rings : list Ring) (acc : extent),
    all_rings feature_items = Ok rings ->
    collect_loop feature_items acc = Ok (fold_left track (concat rings) acc).
Proof.
  unfold all_rings.
  induction feature_items as [| item items IH]; intros rings acc H.
  - simpl in H. injection H as <-. reflexivity.
  - cbn [mapM bind] in H. cbn [collect_loop].
    destruct (polygon_outer_rings (feature_geometry item)) as [rs | e];
      cbn [bind] in *; [| discriminate].
    destruct (mapM _ items) as [ringss | e]; cbn [bind] in *; [| discriminate].
    injection H as <-. rewrite (IH (concat ringss) _ eq_refl).
    cbn [concat]. rewrite concat_app, fold_left_app, fold_rings_concat.
    reflexivity.
Qed.

Lemma fold_pymin_finite (l : list pyfloat) :
  forall a : R,
    Forall (fun x => isfinite x = true) l ->
    exists m : R,
      fold_left pymin l (Fin a) = Fin m
      /\ (m <= a)%R
      /\ (forall x, In (Fin x) l -> (m <= x)%R)
      /\ (m = a \/ In (Fin m) l).
Proof.
  induction l as [| x l IH]; intros a Hl.
  - exists a. simpl. repeat split; [lra | tauto | auto].
  - inversion Hl as [| ? ? Hx Hl']; subst.
    destruct x as [x | | |]; try discriminate. simpl.
    unfold pymin at 2. simpl. destruct (Rlt_dec x a) as [Hlt | Hge].
    + destruct (IH x Hl') as (m & Hm & Hle & Hall & Hin).
      exists m. split; [exact Hm |]. split; [lra |]. split.
      * intros y [Hy | Hy]; [injection Hy as <-; exact Hle | exact (Hall y Hy)].
      * right. destruct Hin as [-> | Hin]; [left; reflexivity | right; exact Hin].
    + destruct (IH a Hl') as (m & Hm & Hle & Hall & Hin).
      exists m. split; [exact Hm |]. split; [exact Hle |]. split.
      * intros y [Hy | Hy]; [injection Hy as <-; lra | exact (Hall y Hy)].
      * destruct Hin as [-> | Hin]; [left; reflexivity | right; right; exact Hin].
Qed.

Lemma fold_pymax_finite (l : list pyfloat) :
  forall a : R,
    Forall (fun x => isfinite x = true) l ->
    exists m : R,
      fold_left pymax l (Fin a) = Fin m
      /\ (a <= m)%R
      /\ (forall x, In (Fin x) l -> (x <= m)%R)
      /\ (m = a \/ In (Fin m) l).
Proof.
  induction l as [| x l IH]; intros a Hl.
  - exists a. simpl. repeat split; [lra | tauto | auto].
  - inversion Hl as [| ? ? Hx Hl']; subst.
    destruct x as [x | | |]; try discriminate. simpl.
    unfold pymax at 2. simpl. destruct (Rlt_dec a x) as [Hlt | Hge].
    + destruct (IH x Hl') as (m & Hm & Hle & Hall & Hin).
      exists m. split; [exact Hm |]. split; [lra |]. split.
      * intros y [Hy | Hy]; [injection Hy as <-; exact Hle | exact (Hall y Hy)].
      * right. destruct Hin as [-> | Hin]; [left; reflexivity | right; exact Hin].
    + destruct (IH a Hl') as (m & Hm & Hle & Hall & Hin).
      exists m. split; [exact Hm |]. split; [exact Hle |]. split.
      * intros y [Hy | Hy]; [injection Hy as <-; lra | exact (Hall y Hy)].
      * destruct Hin as [-> | Hin]; [left; reflexivity | right; right; exact Hin].
Qed.

(** Started from the sentinels, the running minimum and maximum over a
    non-empty list of finite floats are its least and greatest members. *)
Lemma fold_pymin_least (l : list pyfloat) :
  l <> [] -> Forall (fun x => isfinite x = true) l ->
  exists m : R, fold_left pymin l PInf = Fin m /\ is_least m l.
Proof.
  destruct l as [| x l]; [congruence |]. intros _ Hl.
  inversion Hl as [| ? ? Hx Hl']; subst.
  destruct x as [x | | |]; try discriminate.
  destruct (fold_pymin_finite l x Hl') as (m & Hm & Hle & Hall & Hin).
  exists m. split; [exact Hm |]. split.
  - destruct Hin as [-> | Hin]; [left; reflexivity | right; exact Hin].
  - intros y [Hy | Hy]; [injection Hy as <-; exact Hle | exact (Hall y Hy)].
Qed.

Lemma fold_pymax_greatest (l : list pyfloat) :
  l <> [] -> Forall (fun x => isfinite x = true) l ->
  exists m : R, fold_left pymax l NInf = Fin m /\ is_greatest m l.
Proof.
  destruct l as [| x l]; [congruence |]. intros _ Hl.
  inversion Hl as [| ? ? Hx Hl']; subst.
  destruct x as [x | | |]; try discriminate.
  destruct (fold_pymax_finite l x Hl') as (m & Hm & Hle & Hall & Hin).
  exists m. split; [exact Hm |]. split.
  - destruct Hin as [-> | Hin]; [left; reflexivity | right; exact Hin].
  - intros y [Hy | Hy]; [injection Hy as <-; exact Hle | exact (Hall y Hy)].
Qed.

(** Every ring the features give has three vertices or more. *)
Lemma all_rings_lengths (feature_items : list feature) :
  forall rings : list Ring,
    all_rings feature_items = Ok rings ->
    Forall (fun ring => (3 <= length ring)%nat) rings.
Proof.
  unfold all_rings.
  induction feature_items as [| item items IH]; intros rings H.
  - simpl in H. injection H as <-. constructor.
  - cbn [mapM bind] in H.
    destruct (polygon_outer_rings (feature_geometry item)) as [rs | e] eqn:Hrs;
      cbn [bind] in H; [| discriminate].
    destruct (mapM _ items) as [ringss | e]; cbn [bind] in *; [| discriminate].
    injection H as <-. cbn [concat]. apply Forall_app. split.
    + apply (polygon_outer_rings_lengths (feature_geometry item)), Hrs.
    + apply IH. reflexivity.
Qed.

Lemma flt_trans (a b c : pyfloat) : flt a b = true -> flt b c = true -> flt a c = true.
Proof.
  destruct a as [x | | |], b as [y | | |], c as [z | | |]; simpl;
    try discriminate; try reflexivity.
  destruct (Rlt_dec x y), (Rlt_dec y z), (Rlt_dec x z); try discriminate; try reflexivity.
  lra.
Qed.

Lemma flt_irrefl (a : pyfloat) : flt a a = false.
Proof.
  destruct a as [x | | |]; simpl; try reflexivity.
  destruct (Rlt_dec x x); [lra | reflexivity].
Qed.

Lemma fold_pymin_running (l : list pyfloat) :
  forall a : pyfloat, a <> NaN ->
    let m := fold_left pymin l a in
    m <> NaN /\ (In m l \/ m = a) /\ flt a m = false
    /\ forall x, In x l -> flt x m = false.
Proof.
  induction l as [| y l IH]; intros a Ha; cbn zeta.
  - simpl. split; [exact Ha |]. split; [right; reflexivity |].
    split; [apply flt_irrefl | intros x []].
  - cbn [fold_left]. change (pymin a y) with (if flt y a then y else a). destruct (flt y a) eqn:Hya.
    + assert (Hy : y <> NaN) by (intros ->; discriminate).
      destruct (IH y Hy) as (Hm & Hin & Hle & Hall). cbn zeta in *.
      set (m := fold_left pymin l y) in *.
      split; [exact Hm |]. split; [| split].
      * left. destruct Hin as [Hin | ->]; [right; exact Hin | left; reflexivity].
      * destruct (flt a m) eqn:Ham; [| reflexivity].
        rewrite (flt_trans y a m Hya Ham) in Hle. discriminate.
      * intros x [<- | Hx]; [exact Hle | exact (Hall x Hx)].
    + destruct (IH a Ha) as (Hm & Hin & Hle & Hall). cbn zeta in *.
      set (m := fold_left pymin l a) in *.
      split; [exact Hm |]. split; [| split].
      * destruct Hin as [Hin | ->]; [left; right; exact Hin | right; reflexivity].
      * exact Hle.
      * intros x [<- | Hx]; [| exact (Hall x Hx)].
        destruct (flt y m) eqn:Hym; [| reflexivity].
        destruct (flt m a) eqn:Hma.
        -- rewrite (flt_trans y m a Hym Hma) in Hya. discriminate.
        -- (* m = a as values: neither below the other *)
           destruct y as [y | | |], m as [r | | |], a as [s | | |];
             simpl in *; try discriminate; try congruence;
             repeat (destruct (Rlt_dec _ _)); try discriminate; try lra.
Qed.

Lemma fold_pymax_running (l : list pyfloat) :
  forall a : pyfloat, a <> NaN ->
    let m := fold_left pymax l a in
    m <> NaN /\ (In m l \/ m = a) /\ flt m a = false
    /\ forall x, In x l -> flt m x = false.
Proof.
  induction l as [| y l IH]; intros a Ha; cbn zeta.
  - simpl. split; [exact Ha |]. split; [right; reflexivity |].
    split; [apply flt_irrefl | intros x []].
  - cbn [fold_left]. change (pymax a y) with (if flt a y then y else a). destruct (flt a y) eqn:Hay.
    + assert (Hy : y <> NaN) by (intros ->; destruct a; discriminate).
      destruct (IH y Hy) as (Hm & Hin & Hle & Hall). cbn zeta in *.
      set (m := fold_left pymax l y) in *.
      split; [exact Hm |]. split; [| split].
      * left. destruct Hin as [Hin | ->]; [right; exact Hin | left; reflexivity].
      * destruct (flt m a) eqn:Hma; [| reflexivity].
        rewrite (flt_trans m a y Hma Hay) in Hle. discriminate.
      * intros x [<- | Hx]; [exact Hle | exact (Hall x Hx)].
    + destruct (IH a Ha) as (Hm & Hin & Hle & Hall). cbn zeta in *.
      set (m := fold_left pymax l a) in *.
      split; [exact Hm |]. split; [| split].
      * destruct Hin as [Hin | ->]; [left; right; exact Hin | right; reflexivity].
      * exact Hle.
      * intros x [<- | Hx]; [| exact (Hall x Hx)].
        destruct (flt m y) eqn:Hmy; [| reflexivity].
        destruct (flt a m) eqn:Ham.
        -- rewrite (flt_trans a m y Ham Hmy) in Hay. discriminate.
        -- destruct y as [y | | |], m as [r | | |], a as [s | | |];
             simpl in *; try discriminate; try congruence;
             repeat (destruct (Rlt_dec _ _)); try discriminate; try lra.
Qed.

Lemma fold_pymin_running_min (l : list pyfloat) :
  running_min (fold_left pymin l PInf) l.
Proof.
  destruct (fold_pymin_running l PInf ltac:(discriminate)) as (Hm & Hin & _ & Hall).
  repeat split; assumption.
Qed.

Lemma fold_pymax_running_max (l : list pyfloat) :
  running_max (fold_left pymax l NInf) l.
Proof.
  destruct (fold_pymax_running l NInf ltac:(discriminate)) as (Hm & Hin & _ & Hall).
  repeat split; assumption.
Qed.

Lemma flt_antisym (a b : pyfloat) :
  a <> NaN -> b <> NaN -> flt a b = false -> flt b a = false -> a = b.
Proof.
  destruct a as [x | | |], b as [y | | |]; simpl; intros Ha Hb Hab Hba;
    try discriminate; try congruence.
  destruct (Rlt_dec x y), (Rlt_dec y x); try discriminate.
  f_equal. lra.
Qed.

(** The description of a running minimum (maximum) leaves one value. *)
Lemma running_min_unique (m m' : pyfloat) (l : list pyfloat) :
  running_min m l -> running_min m' l -> m = m'.
Proof.
  intros (Hm & Hin & Hall) (Hm' & Hin' & Hall').
  destruct Hin as [Hin | ->], Hin' as [Hin' | ->].
  - apply flt_antisym; auto.
  - specialize (Hall' m Hin). destruct m; simpl in Hall'; congruence.
  - specialize (Hall m' Hin'). destruct m'; simpl in Hall; congruence.
  - reflexivity.
Qed.

Lemma running_max_unique (m m' : pyfloat) (l : list pyfloat) :
  running_max m l -> running_max m' l -> m = m'.
Proof.
  intros (Hm & Hin & Hall) (Hm' & Hin' & Hall').
  destruct Hin as [Hin | ->], Hin' as [Hin' | ->].
  - apply flt_antisym; auto.
  - specialize (Hall' m Hin). destruct m; simpl in Hall'; congruence.
  - specialize (Hall m' Hin'). destruct m'; simpl in Hall; congruence.
  - reflexivity.
Qed.

(** A geometry that [polygon_outer_rings] rejects ends the loops with its
    exception. *)
Lemma collect_loop_raises (feature_items : list feature) (e : exn) :
  all_rings feature_items = Raise e ->
  forall acc : extent, collect_loop feature_items acc = Raise e.
Proof.
  unfold all_rings.
  induction feature_items as [| item items IH]; intros H acc.
  - discriminate.
  - cbn [mapM bind] in H. cbn [collect_loop].
    destruct (polygon_outer_rings (feature_geometry item)) as [rs | e'];
      cbn [bind] in *; [| congruence].
    apply IH. destruct (mapM _ items) as [ringss | e']; cbn [bind] in *;
      [discriminate | exact H].
Qed.

(** The parcel has a ring and finite latitudes, and [collect_bounds] fails
    all the same: only the running minimum longitude is tested. *)
Lemma collect_bounds_fails_with_finite_latitudes :
  all_rings [nan_longitude_parcel]
  = Ok [[(NaN, Fin 36.7); (NaN, Fin 36.8); (NaN, Fin 36.7)]]%R
  /\ isfinite (Fin 36.7) = true
  /\ collect_bounds [nan_longitude_parcel] = Raise no_geometry.
Proof. repeat split. Qed.

(** C8, amended. When [polygon_outer_rings] raises on the geometry of a
    feature, [collect_bounds] raises the same exception. Otherwise it fails
    with its NoGeometry error whenever the features contain no ring,
    whenever no longitude of any ring is finite (so, whenever all
    coordinate values are non-finite) and whenever some longitude is -inf.
    In every other case it returns (min-lon, min-lat, max-lon, max-lat)
    with a finite min-lon: each component is the running minimum or maximum
    of the longitudes or latitudes over every vertex of every outer ring of
    every feature, in which a NaN is skipped and the start value (+inf for
    a minimum, -inf for a maximum) is what stays when every value is
    skipped. *)
Theorem collect_bounds_spec (feature_items : list feature) :
  (forall e : exn, all_rings feature_items = Raise e ->
   collect_bounds feature_items = Raise e)
  /\ (forall rings : list Ring, all_rings feature_items = Ok rings ->
      let lons := map fst (concat rings) in
      let lats := map snd (concat rings) in
      (rings = [] \/ (forall x : R, ~ In (Fin x) lons) \/ In NInf lons ->
       collect_bounds feature_items = Raise no_geometry)
      /\ ((exists x : R, In (Fin x) lons) -> ~ In NInf lons ->
          exists (min_lon : R) (min_lat max_lon max_lat : pyfloat),
            collect_bounds feature_items
            = Ok (Fin min_lon, min_lat, max_lon, max_lat)
            /\ running_min (Fin min_lon) lons
            /\ running_min min_lat lats
            /\ running_max max_lon lons
            /\ running_max max_lat lats)).
Proof.
  split.
  - intros e He. unfold collect_bounds.
    rewrite (collect_loop_raises feature_items e He). reflexivity.
  - intros rings Hrings lons lats.
    pose proof (collect_loop_all_rings feature_items rings (PInf, NInf, PInf, NInf)
                  Hrings) as Hloop.
    rewrite fold_track_components in Hloop. fold lons lats in Hloop.
    pose proof (fold_pymin_running_min lons) as (Hm & Hin & Hall).
    set (m := fold_left pymin lons PInf) in *.
    unfold collect_bounds. rewrite Hloop. cbn [bind]. split.
    + intros Hcase.
      assert (Hnf : isfinite m = false).
      { destruct m as [r | | |] eqn:Em; try reflexivity. exfalso.
        destruct Hin as [Hin | Hin]; [| discriminate].
        destruct Hcase as [-> | [Hnone | Hneg]].
        - exact Hin.
        - exact (Hnone r Hin).
        - specialize (Hall NInf Hneg). discriminate. }
      rewrite Hnf. reflexivity.
    + intros [x Hx] Hneg.
      destruct m as [r | | |] eqn:Em.
      * exists r, (fold_left pymin lats PInf), (fold_left pymax lons NInf),
          (fold_left pymax lats NInf).
        split; [reflexivity |]. split; [repeat split; assumption |].
        split; [apply fold_pymin_running_min |].
        split; apply fold_pymax_running_max.
      * specialize (Hall (Fin x) Hx). discriminate.
      * destruct Hin as [Hin | Hin]; [contradiction | discriminate].
      * congruence.
Qed.

(** NaN latitudes are skipped: the bounds keep the start values of the
    latitude extrema. *)
Example collect_bounds_skips_nan_latitudes :
  collect_bounds [nan_latitude_parcel]
  = Ok (Fin (-119.9), PInf, Fin (-119.8), NInf)%R.
Proof.
  unfold collect_bounds, nan_latitude_parcel.
  cbn [collect_loop feature_geometry polygon_outer_rings gtype_is gtype
       coordinates String.eqb Ascii.eqb Bool.eqb outer_rings_loop truthy negb
       index0 iter bind mapM position unpack2 to_float length Nat.leb
       app fold_left track].
  unfold pymin, pymax, flt.
  repeat (destruct (Rlt_dec _ _); try lra).
  reflexivity.
Qed.

(** On the square parcel the loops give the bounds of the square. *)
Example collect_bounds_square_parcel :
  collect_bounds [square_parcel]
  = Ok (Fin (-119.9), Fin 36.7, Fin (-119.8), Fin 36.8)%R.
Proof.
  unfold collect_bounds, square_parcel.
  cbn [collect_loop feature_geometry polygon_outer_rings gtype_is gtype
       coordinates String.eqb Ascii.eqb Bool.eqb outer_rings_loop truthy negb
       index0 iter bind mapM position unpack2 to_float pos2 length Nat.leb
       app fold_left track].
  unfold pymin, pymax, flt.
  repeat (destruct (Rlt_dec _ _); try lra).
  reflexivity.
Qed.

(** ** Bounds calculator: [contextual_bounds] *)

Open Scope R_scope.

Ltac rmax_cases :=
  unfold Rmax; repeat (destruct (Rle_dec _ _)); try lra.

Ltac unfold_bounds :=
  unfold proper_bounds, ordered_bounds, strictly_contains, contains,
    within_magnitude, bounds_within, bounds_center, span_lon, span_lat,
    bounds_min_lon, bounds_min_lat, bounds_max_lon, bounds_max_lat in *;
  cbn [fst snd] in *.

Lemma contextual_bounds_components (b : Bounds) (p sx sy : R) :
  let hw := Rmax (Rmax (bounds_max_lon b - bounds_min_lon b) sx) 1e-6 * (0.5 + p) in
  let hh := Rmax (Rmax (bounds_max_lat b - bounds_min_lat b) sy) 1e-6 * (0.5 + p) in
  contextual_bounds b p sx sy
  = (fst (bounds_center b) - hw, snd (bounds_center b) - hh,
     fst (bounds_center b) + hw, snd (bounds_center b) + hh).
Proof. destruct b as [[[min_lon min_lat] max_lon] max_lat]. reflexivity. Qed.

Lemma rnd_half : rnd 0.5 = 0.5.
Proof.
  replace 0.5 with (pow2 (-1)) by (pow2_num; lra). apply rnd_pow2. lia.
Qed.

(** The literal [1e-6] is a double between 2^-20 and 9 * 2^-23. *)
Lemma lit_micro : pow2 (-20) <= B64.lit 1e-6 <= 9 * pow2 (-23).
Proof.
  unfold B64.lit. split.
  - apply rnd_ge_pow2; [lia |]. pow2_num. lra.
  - rewrite <- (rnd_exact 9 (-23)) by (simpl; lia).
    apply rnd_mono. pow2_num. lra.
Qed.

(** The half-span is at least 2^-21, whatever the span and the minimum. *)
Lemma half_span_floor (d s p : R) :
  0 <= p -> pow2 (-21) <= B64.mul (Rmax (Rmax d s) (B64.lit 1e-6)) (B64.add 0.5 p).
Proof.
  intros Hp. unfold B64.mul, B64.add. pose proof lit_micro as [Hlit _].
  assert (Hk : 0.5 <= rnd (0.5 + p)).
  { rewrite <- rnd_half at 1. apply rnd_mono. lra. }
  pose proof (Rmax_r (Rmax d s) (B64.lit 1e-6)) as Hbase.
  apply rnd_ge_pow2; [lia |].
  pose proof (pow2_pos (-20)) as H20.
  replace (pow2 (-21)) with (pow2 (-20) * 0.5) by (pow2_num; lra).
  apply Rmult_le_compat; lra.
Qed.

Lemma center_magnitude (x0 x1 : R) (n : Z) :
  (0 <= n)%Z -> (2 * n <= 2 ^ 53)%Z -> Rabs x0 <= IZR n -> Rabs x1 <= IZR n ->
  Rabs (B64.div (B64.add x0 x1) 2) <= IZR n.
Proof.
  intros Hn0 Hn H0 H1. apply Rabs_le_inv in H0, H1. unfold B64.div, B64.add.
  assert (Hs : - IZR (2 * n) <= rnd (x0 + x1) <= IZR (2 * n)).
  { split.
    - rewrite <- opp_IZR. apply rnd_ge_IZR; [lia |]. rewrite opp_IZR, mult_IZR. lra.
    - apply rnd_le_IZR; [lia |]. rewrite mult_IZR. lra. }
  rewrite mult_IZR in Hs. apply Rabs_le. split.
  - rewrite <- opp_IZR. apply rnd_ge_IZR; [lia |]. rewrite opp_IZR. lra.
  - apply rnd_le_IZR; [lia |]. lra.
Qed.

(** Around a center below 10^9 a half-span of 2^-21 or more separates the
    two rounded ends. *)
Lemma ends_apart (c hw : R) :
  Rabs c <= 1e9 -> pow2 (-21) <= hw -> B64.sub c hw < B64.add c hw.
Proof.
  intros Hc Hhw. unfold B64.sub, B64.add. apply Rabs_le_inv in Hc.
  replace 1e9 with 1000000000 in Hc by lra.
  pose proof (pow2_pos (-21)) as H21.
  assert (Hlo : rnd (c - hw) <= c - pow2 (-21) + pow2 (-24)).
  { apply Rle_trans with (rnd (c - pow2 (-21))); [apply rnd_mono; lra |].
    pose proof (rnd_err_below (c - pow2 (-21)) 30 ltac:(lia)) as H.
    replace (30 - 54)%Z with (-24)%Z in H by lia.
    assert (Hb : Rabs (c - pow2 (-21)) < pow2 30).
    { apply Rabs_def1; pow2_num; lra. }
    apply H, Rabs_le_inv in Hb. lra. }
  assert (Hhi : c + pow2 (-21) - pow2 (-24) <= rnd (c + hw)).
  { apply Rle_trans with (rnd (c + pow2 (-21))); [| apply rnd_mono; lra].
    pose proof (rnd_err_below (c + pow2 (-21)) 30 ltac:(lia)) as H.
    replace (30 - 54)%Z with (-24)%Z in H by lia.
    assert (Hb : Rabs (c + pow2 (-21)) < pow2 30).
    { apply Rabs_def1; pow2_num; lra. }
    apply H, Rabs_le_inv in Hb. lra. }
  pow2_num. lra.
Qed.

(** C9, amended. For bounds with min <= max on each axis and coordinates of
    absolute value at most 1e9 (every longitude and latitude is), a padding
    factor >= 0 and any minimum spans (0 included), [contextual_bounds]
    returns bounds with min strictly below max on both axes: the computed
    half-span is at least 2^-21, which the doubles around 1e9 resolve. *)
Theorem contextual_bounds_proper (b : Bounds) (p sx sy : R) :
  ordered_bounds b -> within_magnitude 1e9 b -> 0 <= p ->
  proper_bounds (B64.contextual_bounds b p sx sy).
Proof.
  destruct b as [[[min_lon min_lat] max_lon] max_lat].
  intros _ Hm Hp. unfold B64.contextual_bounds. unfold_bounds.
  destruct Hm as (H1 & H2 & H3 & H4).
  replace 1e9 with (IZR 1000000000) in * by lra.
  split; (apply ends_apart; [| apply half_span_floor; exact Hp]);
    replace 1e9 with (IZR 1000000000) by lra;
    apply center_magnitude; (lia || assumption).
Qed.

Lemma contextual_bounds_proper_witness :
  ordered_bounds (5, 7, 5, 7) /\ within_magnitude 1e9 (5, 7, 5, 7)
  /\ proper_bounds (B64.contextual_bounds (5, 7, 5, 7) 0 0 0).
Proof.
  assert (H : ordered_bounds (5, 7, 5, 7)) by (unfold_bounds; lra).
  assert (Hm : within_magnitude 1e9 (5, 7, 5, 7)).
  { unfold_bounds. repeat split; apply Rabs_le; lra. }
  split; [exact H |]. split; [exact Hm |].
  apply (contextual_bounds_proper (5, 7, 5, 7) 0 0 0 H Hm). lra.
Defined.

(** Around 1e10 the doubles are 2^-19 apart: a half-span of half a
    millionth is lost when it is added to the center. *)
Lemma axis_collapse :
  let X := 10000000000 in
  let c := B64.div (B64.add X X) 2 in
  let hw := B64.mul (Rmax (Rmax (B64.sub X X) 0) (B64.lit 1e-6)) (B64.add 0.5 0) in
  B64.sub c hw = X /\ B64.add c hw = X.
Proof.
  intros X c hw.
  assert (Hc : c = X).
  { unfold c, B64.div, B64.add, X. replace (10000000000 + 10000000000) with (IZR 20000000000) by lra.
    rewrite rnd_IZR by lia. replace (20000000000 / 2) with (IZR 10000000000) by lra.
    apply rnd_IZR. lia. }
  pose proof lit_micro as [Hlo Hhi]. pose proof (pow2_pos (-20)) as H20.
  assert (Hhw : pow2 (-21) <= hw <= 9 * pow2 (-24)).
  { split; [apply half_span_floor; lra |]. unfold hw, B64.sub.
    replace (X - X) with 0 by lra. rewrite rnd_0.
    rewrite (Rmax_left 0 0) by lra. rewrite Rmax_right by lra.
    replace (B64.add 0.5 0) with 0.5 by (unfold B64.add; rewrite Rplus_0_r, rnd_half; reflexivity).
    unfold B64.mul. rewrite <- (rnd_exact 9 (-24)) by (simpl; lia).
    apply rnd_mono. pow2_num. lra. }
  rewrite Hc. clearbody hw. clear c Hc. unfold B64.sub, B64.add, X.
  split.
  - rewrite (rnd_nearest (10000000000 - hw) 5242880000000000 (-19)).
    + pow2_num. lra.
    + lia.
    + rewrite Rabs_pos_eq by (pow2_num; lra). pow2_num. lra.
    + apply Rabs_def1; pow2_num; lra.
  - rewrite (rnd_nearest (10000000000 + hw) 5242880000000000 (-19)).
    + pow2_num. lra.
    + lia.
    + rewrite Rabs_pos_eq by (pow2_num; lra). pow2_num. lra.
    + apply Rabs_def1; pow2_num; lra.
Qed.

(** Degenerate bounds at 1e10 come back as they are, with min = max. *)
Lemma contextual_bounds_collapses_far_from_zero :
  ordered_bounds far_bounds
  /\ B64.contextual_bounds far_bounds 0 0 0 = far_bounds
  /\ ~ proper_bounds (B64.contextual_bounds far_bounds 0 0 0).
Proof.
  assert (H : B64.contextual_bounds far_bounds 0 0 0 = far_bounds).
  { unfold B64.contextual_bounds, far_bounds. destruct axis_collapse as [Hlo Hhi].
    cbv zeta in Hlo, Hhi. rewrite Hlo, Hhi. reflexivity. }
  split; [unfold far_bounds; unfold_bounds; lra |]. split; [exact H |].
  rewrite H. unfold far_bounds. unfold_bounds. lra.
Qed.

Section Axis.

Variables x0 x1 : R.
Hypothesis Hlt : x0 < x1.
Hypothesis H0 : Rabs x0 <= 360.
Hypothesis H1 : Rabs x1 <= 360.

Lemma axis_center_error :
  Rabs (B64.div (B64.add x0 x1) 2 - (x0 + x1) / 2) <= pow2 (-44)
  /\ Rabs (B64.div (B64.add x0 x1) 2) <= 360.
Proof.
  split; [| apply (center_magnitude x0 x1 360); (lia || assumption)].
  apply Rabs_le_inv in H0, H1. unfold B64.div, B64.add.
  pose proof (rnd_err_below (x0 + x1) 10 ltac:(lia)) as Hs.
  assert (Hb : Rabs (x0 + x1) < pow2 10) by (apply Rabs_def1; pow2_num; lra).
  apply Hs, Rabs_le_inv in Hb.
  assert (Hm : - 720 <= rnd (x0 + x1) <= 720).
  { split.
    - apply (rnd_ge_IZR _ (-720)); [lia | lra].
    - apply (rnd_le_IZR _ 720); [lia | lra]. }
  pose proof (rnd_err_below (rnd (x0 + x1) / 2) 9 ltac:(lia)) as Hc.
  assert (Hb' : Rabs (rnd (x0 + x1) / 2) < pow2 9) by (apply Rabs_def1; pow2_num; lra).
  apply Hc, Rabs_le_inv in Hb'. clear Hs Hc.
  apply Rabs_le. replace (10 - 54)%Z with (-44)%Z in * by lia.
  replace (9 - 54)%Z with (-45)%Z in * by lia. pow2_num. lra.
Qed.

Lemma axis_span_error :
  Rabs (B64.sub x1 x0 - (x1 - x0)) <= pow2 (-44) /\ 0 <= B64.sub x1 x0 <= 720.
Proof.
  apply Rabs_le_inv in H0, H1. unfold B64.sub. split.
  - apply (rnd_err_below (x1 - x0) 10); [lia |]. apply Rabs_def1; pow2_num; lra.
  - split; [apply rnd_nonneg; lra | apply (rnd_le_IZR _ 720); [lia | lra]].
Qed.

(** The literal [1e-6] is within 2^-73 of a millionth. *)
Lemma lit_micro_error : Rabs (B64.lit 1e-6 - 1e-6) <= pow2 (-73).
Proof.
  unfold B64.lit. apply (rnd_err_below 1e-6 (-19)); [lia |].
  apply Rabs_def1; pow2_num; lra.
Qed.

(** Padding 0 on a span of 1e-6 or more: the ends come back within 2^-42. *)
Lemma axis_zero_padding :
  1e-6 <= x1 - x0 ->
  let c := B64.div (B64.add x0 x1) 2 in
  let hw := B64.mul (Rmax (Rmax (B64.sub x1 x0) 0) (B64.lit 1e-6)) (B64.add 0.5 0) in
  Rabs (B64.sub c hw - x0) <= pow2 (-42) /\ Rabs (B64.add c hw - x1) <= pow2 (-42).
Proof.
  intros Hspan c hw.
  destruct axis_center_error as [Hc Hcm]. fold c in Hc, Hcm.
  destruct axis_span_error as [Hd [Hd0 Hd1]].
  assert (Hbase : Rmax (Rmax (B64.sub x1 x0) 0) (B64.lit 1e-6) = B64.sub x1 x0).
  { assert (B64.lit 1e-6 <= B64.sub x1 x0) by (apply rnd_mono; lra).
    rewrite (Rmax_left _ 0) by lra. apply Rmax_left. lra. }
  assert (Hk : B64.add 0.5 0 = 0.5) by (unfold B64.add; rewrite Rplus_0_r; apply rnd_half).
  unfold hw. rewrite Hbase, Hk. clear hw Hbase Hk. set (d := B64.sub x1 x0) in *.
  apply Rabs_le_inv in Hc, Hcm, Hd, H0, H1.
  assert (Hhw : Rabs (B64.mul d 0.5 - d * 0.5) <= pow2 (-45)).
  { apply (rnd_err_below (d * 0.5) 9); [lia |]. apply Rabs_def1; pow2_num; lra. }
  apply Rabs_le_inv in Hhw. set (hw := B64.mul d 0.5) in *.
  assert (Hlo : Rabs (B64.sub c hw - (c - hw)) <= pow2 (-45)).
  { apply (rnd_err_below (c - hw) 9); [lia |]. pow2_num. apply Rabs_def1; lra. }
  assert (Hhi : Rabs (B64.add c hw - (c + hw)) <= pow2 (-45)).
  { apply (rnd_err_below (c + hw) 9); [lia |]. pow2_num. apply Rabs_def1; lra. }
  apply Rabs_le_inv in Hlo, Hhi. pow2_num. split; apply Rabs_le; lra.
Qed.

(** The computed half-span exceeds half the span by the padding, short of
    the rounding errors. *)
Lemma axis_half_span (p : R) :
  0 < p -> pow2 (-40) <= p * Rmax (x1 - x0) 1e-6 ->
  (x1 - x0) / 2 + 3 * pow2 (-44)
  <= B64.mul (Rmax (Rmax (B64.sub x1 x0) 0) (B64.lit 1e-6)) (B64.add 0.5 p).
Proof.
  intros Hp Hpad.
  destruct axis_span_error as [Hd [Hd0 Hd1]]. pose proof lit_micro_error as Hlit.
  pose proof lit_micro as [Hlit0 _].
  apply Rabs_le_inv in Hd, Hlit, H0, H1.
  set (base := Rmax (Rmax (B64.sub x1 x0) 0) (B64.lit 1e-6)).
  set (B := Rmax (x1 - x0) 1e-6) in *.
  assert (HB : 1e-6 <= B /\ x1 - x0 <= B /\ B <= 720).
  { unfold B. split; [apply Rmax_r |]. split; [apply Rmax_l |].
    apply Rmax_lub; lra. }
  assert (Hbase : B - pow2 (-44) <= base /\ pow2 (-20) <= base).
  { unfold base, B. split; [| apply Rle_trans with (B64.lit 1e-6); [lra | apply Rmax_r]].
    pose proof (Rmax_r (Rmax (B64.sub x1 x0) 0) (B64.lit 1e-6)).
    pose proof (Rmax_l (Rmax (B64.sub x1 x0) 0) (B64.lit 1e-6)).
    pose proof (Rmax_l (B64.sub x1 x0) 0).
    assert (pow2 (-73) <= pow2 (-44)) by (apply pow2_le; lia).
    apply Rmax_case; lra. }
  assert (Hk : (0.5 + p) * (1 - pow2 (-53)) <= B64.add 0.5 p).
  { unfold B64.add. pose proof (rnd_rel_err (0.5 + p)) as H.
    assert (Hn : pow2 (-1022) <= Rabs (0.5 + p)).
    { rewrite Rabs_pos_eq by lra. apply Rle_trans with (pow2 (-1)); [apply pow2_le; lia |].
      pow2_num. lra. }
    apply H, Rabs_le_inv in Hn. rewrite Rabs_pos_eq in Hn by lra. lra. }
  set (k := B64.add 0.5 p) in *.
  assert (Hu : 0 < pow2 (-53) < 1 / 2) by (pow2_num; lra).
  assert (Hk0 : 0.5 * (1 - pow2 (-53)) <= k) by nra.
  assert (Hprod : (B - pow2 (-44)) * ((0.5 + p) * (1 - pow2 (-53))) <= base * k).
  { assert (0 < pow2 (-44) < 1e-7) by (pow2_num; lra).
    apply Rmult_le_compat; try lra. apply Rmult_le_pos; lra. }
  assert (Hn : pow2 (-1022) <= Rabs (base * k)).
  { pose proof (pow2_pos (-20)).
    rewrite Rabs_pos_eq by (apply Rmult_le_pos; lra).
    apply Rle_trans with (pow2 (-20) * pow2 (-2)).
    - rewrite <- pow2_add. apply pow2_le. lia.
    - apply Rmult_le_compat; try lra; [left; apply pow2_pos |]. pow2_num. lra. }
  pose proof (rnd_rel_err (base * k) Hn) as Hhw. apply Rabs_le_inv in Hhw.
  assert (Hbk : 0 <= base * k).
  { pose proof (pow2_pos (-20)). apply Rmult_le_pos; lra. }
  rewrite Rabs_pos_eq in Hhw by exact Hbk. fold (B64.mul base k) in Hhw.
  assert (Hpb : p * 1e-6 <= p * B) by (apply Rmult_le_compat_l; lra).
  assert (Hhw' : (B - pow2 (-44)) * ((0.5 + p) * (1 - pow2 (-53))) * (1 - pow2 (-53))
                 <= B64.mul base k).
  { apply Rle_trans with (base * k * (1 - pow2 (-53))); [| lra].
    apply Rmult_le_compat_r; lra. }
  clear Hhw Hprod Hk Hk0 Hn Hbk Hbase Hd Hd0 Hd1 Hlit Hlit0.
  destruct HB as (HB1 & HB2 & HB3).
  pow2_num. nra.
Qed.

Lemma axis_padding (p : R) :
  0 < p -> pow2 (-40) <= p * Rmax (x1 - x0) 1e-6 ->
  let c := B64.div (B64.add x0 x1) 2 in
  let hw := B64.mul (Rmax (Rmax (B64.sub x1 x0) 0) (B64.lit 1e-6)) (B64.add 0.5 p) in
  B64.sub c hw < x0 /\ x1 < B64.add c hw.
Proof.
  intros Hp Hpad c hw. pose proof (axis_half_span p Hp Hpad) as Hhw. fold hw in Hhw.
  destruct axis_center_error as [Hc _]. fold c in Hc.
  apply Rabs_le_inv in Hc, H0, H1. split.
  - apply Rle_lt_trans with (rnd (x0 - pow2 (-43))).
    + apply rnd_mono. pow2_num. lra.
    + pose proof (rnd_err_below (x0 - pow2 (-43)) 9 ltac:(lia)) as H.
      assert (Hb : Rabs (x0 - pow2 (-43)) < pow2 9) by (pow2_num; apply Rabs_def1; lra).
      apply H, Rabs_le_inv in Hb. replace (9 - 54)%Z with (-45)%Z in Hb by lia.
      pow2_num. lra.
  - apply Rlt_le_trans with (rnd (x1 + pow2 (-43))).
    + pose proof (rnd_err_below (x1 + pow2 (-43)) 9 ltac:(lia)) as H.
      assert (Hb : Rabs (x1 + pow2 (-43)) < pow2 9) by (pow2_num; apply Rabs_def1; lra).
      apply H, Rabs_le_inv in Hb. replace (9 - 54)%Z with (-45)%Z in Hb by lia.
      pow2_num. lra.
    + apply rnd_mono. pow2_num. lra.
Qed.

(** The middle of the two rounded ends stays at the center of the input,
    within 2^-42 and 2^-52 of the returned span. *)
Lemma axis_center (hw : R) :
  0 <= hw ->
  let c := B64.div (B64.add x0 x1) 2 in
  Rabs ((B64.sub c hw + B64.add c hw) / 2 - (x0 + x1) / 2)
  <= pow2 (-42) + pow2 (-52) * (B64.add c hw - B64.sub c hw).
Proof.
  intros Hhw c. destruct axis_center_error as [Hc Hcm]. fold c in Hc, Hcm.
  apply Rabs_le_inv in Hc, Hcm.
  pose proof (rnd_err (c - hw)) as Hlo. pose proof (rnd_err (c + hw)) as Hhi.
  assert (Hm1 : Rabs (c - hw) <= 360 + hw) by (apply Rabs_le; lra).
  assert (Hm2 : Rabs (c + hw) <= 360 + hw) by (apply Rabs_le; lra).
  assert (Heta : 0 < pow2 (-1075) <= pow2 (-60)).
  { split; [apply pow2_pos | apply pow2_le; lia]. }
  set (eta := pow2 (-1075)) in *. fold (B64.sub c hw) in Hlo. fold (B64.add c hw) in Hhi.
  set (o0 := B64.sub c hw) in *. set (o1 := B64.add c hw) in *.
  assert (Hu : 0 < pow2 (-53)) by apply pow2_pos.
  assert (Hlo' : Rabs (o0 - (c - hw)) <= pow2 (-53) * (360 + hw) + eta) by nra.
  assert (Hhi' : Rabs (o1 - (c + hw)) <= pow2 (-53) * (360 + hw) + eta) by nra.
  apply Rabs_le_inv in Hlo', Hhi'. clear Hlo Hhi Hm1 Hm2.
  apply Rabs_le. pow2_num. lra.
Qed.

End Axis.

(** C5, amended. For bounds with min < max on both axes and coordinates
    of absolute value at most 360: with padding 0 and spans of at least
    1e-6, [contextual_bounds b 0 0 0] returns [b] up to rounding, each
    coordinate within 2^-42 of that of [b]; and for every padding factor
    p > 0 whose padding p * max(span, 1e-6) is at least 2^-40 on each axis
    (as for every p >= 1e-6), [contextual_bounds b p 0 0] strictly contains
    [b], and, for p up to 1e300, its center is the center of [b] within
    2^-42 plus 2^-52 of the returned span. *)
Theorem contextual_bounds_padding (b : Bounds) :
  proper_bounds b -> within_magnitude 360 b ->
  (1e-6 <= span_lon b -> 1e-6 <= span_lat b ->
   bounds_within (pow2 (-42)) (B64.contextual_bounds b 0 0 0) b)
  /\ (forall p : R, 0 < p ->
      pow2 (-40) <= p * Rmax (span_lon b) 1e-6 ->
      pow2 (-40) <= p * Rmax (span_lat b) 1e-6 ->
      let out := B64.contextual_bounds b p 0 0 in
      strictly_contains out b
      /\ (p <= 1e300 ->
          Rabs (fst (bounds_center out) - fst (bounds_center b))
          <= pow2 (-42) + pow2 (-52) * span_lon out
          /\ Rabs (snd (bounds_center out) - snd (bounds_center b))
             <= pow2 (-42) + pow2 (-52) * span_lat out)).
Proof.
  destruct b as [[[min_lon min_lat] max_lon] max_lat].
  unfold bounds_within, B64.contextual_bounds. unfold_bounds.
  intros [Hlon Hlat] (H1 & H2 & H3 & H4). split.
  - intros Hdx Hdy.
    destruct (axis_zero_padding min_lon max_lon Hlon H1 H3 Hdx) as [Ha Hc].
    destruct (axis_zero_padding min_lat max_lat Hlat H2 H4 Hdy) as [Hb Hd].
    tauto.
  - intros p Hp Hpx Hpy. cbv zeta. unfold_bounds.
    destruct (axis_padding min_lon max_lon Hlon H1 H3 p Hp Hpx) as [Ha Hc].
    destruct (axis_padding min_lat max_lat Hlat H2 H4 p Hp Hpy) as [Hb Hd].
    split; [tauto |]. intros _. split.
    + apply (axis_center min_lon max_lon Hlon H1 H3).
      apply Rle_trans with (pow2 (-21)); [left; apply pow2_pos |].
      apply half_span_floor. lra.
    + apply (axis_center min_lat max_lat Hlat H2 H4).
      apply Rle_trans with (pow2 (-21)); [left; apply pow2_pos |].
      apply half_span_floor. lra.
Qed.

Lemma contextual_bounds_padding_witness :
  proper_bounds dyadic_square_bounds
  /\ within_magnitude 360 dyadic_square_bounds
  /\ bounds_within (pow2 (-42)) (B64.contextual_bounds dyadic_square_bounds 0 0 0)
       dyadic_square_bounds
  /\ strictly_contains (B64.contextual_bounds dyadic_square_bounds 0.375 0 0)
       dyadic_square_bounds.
Proof.
  assert (H : proper_bounds dyadic_square_bounds).
  { unfold dyadic_square_bounds. unfold_bounds. lra. }
  assert (Hm : within_magnitude 360 dyadic_square_bounds).
  { unfold dyadic_square_bounds. unfold_bounds.
    repeat split; apply Rabs_le; lra. }
  destruct (contextual_bounds_padding dyadic_square_bounds H Hm) as [Hzero Hpos].
  split; [exact H |]. split; [exact Hm |]. split.
  - apply Hzero; unfold dyadic_square_bounds; unfold_bounds; lra.
  - apply (Hpos 0.375); [lra | |];
      unfold dyadic_square_bounds; unfold_bounds;
      (apply Rle_trans with (0.375 * 1e-6); [pow2_num; lra |]);
      (apply Rmult_le_compat_l; [lra | apply Rmax_r]).
Defined.

(** 0.5 + 2^-60 rounds to 0.5: so small a padding factor is lost. *)
Lemma add_half_tiny : B64.add 0.5 (pow2 (-60)) = B64.add 0.5 0.
Proof.
  unfold B64.add. rewrite Rplus_0_r, rnd_half.
  rewrite (rnd_nearest (0.5 + pow2 (-60)) 4503599627370496 (-53)).
  - pow2_num. lra.
  - lia.
  - rewrite Rabs_pos_eq by (pow2_num; lra). pow2_num. lra.
  - apply Rabs_def1; pow2_num; lra.
Qed.

(** With a span under 1e-6 the floor of the half-span applies and padding 0
    does not give the bounds back; and the padding factor 2^-60 > 0 gives
    what padding 0 gives, so it cannot be that padding 0 returns exactly
    the bounds and every positive padding strictly contains them. *)
Lemma contextual_bounds_floor_and_rounding :
  (proper_bounds tiny_bounds
   /\ B64.contextual_bounds tiny_bounds 0 0 0 <> tiny_bounds)
  /\ (proper_bounds dyadic_square_bounds /\ 0 < pow2 (-60)
      /\ ~ (B64.contextual_bounds dyadic_square_bounds 0 0 0 = dyadic_square_bounds
            /\ strictly_contains
                 (B64.contextual_bounds dyadic_square_bounds (pow2 (-60)) 0 0)
                 dyadic_square_bounds)).
Proof.
  split.
  - split; [unfold tiny_bounds; unfold_bounds; pose proof (pow2_pos (-24)); lra |].
    unfold tiny_bounds, B64.contextual_bounds. intros H.
    apply (f_equal bounds_min_lon) in H. unfold bounds_min_lon in H.
    cbn [fst snd] in H. rename H into Hlon.
    assert (Hc : B64.div (B64.add 0 (pow2 (-24))) 2 = pow2 (-25)).
    { unfold B64.div, B64.add. rewrite Rplus_0_l, rnd_pow2 by lia.
      replace (pow2 (-24) / 2) with (pow2 (-25)) by (pow2_num; lra).
      apply rnd_pow2. lia. }
    rewrite Hc in Hlon.
    pose proof (half_span_floor (B64.sub (pow2 (-24)) 0) 0 0 ltac:(lra)) as Hhw.
    set (hw := B64.mul _ _) in *.
    assert (Hneg : B64.sub (pow2 (-25)) hw <= -15 * pow2 (-25)).
    { unfold B64.sub. rewrite <- (rnd_exact (-15) (-25)) by (simpl; lia).
      apply rnd_mono. pow2_num. lra. }
    rewrite Hlon in Hneg. pose proof (pow2_pos (-25)). lra.
  - split; [unfold dyadic_square_bounds; unfold_bounds; lra |].
    split; [apply pow2_pos |]. intros [Heq Hstrict].
    unfold B64.contextual_bounds, dyadic_square_bounds in Heq, Hstrict.
    rewrite add_half_tiny in Hstrict. rewrite Heq in Hstrict.
    unfold_bounds. lra.
Qed.


Close Scope R_scope.

(** ** Centroid of a ring *)

Open Scope R_scope.































(** The centroid of the closed square is its center. *)
Example closed_centroid_closed_square :
  closed_centroid closed_square = (3 / 2, 3 / 2).
Proof.
  unfold closed_centroid, signed_area, closed_edges, closed_square, Rsum, cross.
  cbn [tl firstn app combine fold_right fst snd]. f_equal; lra.
Qed.

(** The mean of its listed vertices is not: the first is listed twice. *)
Example arithmetic_mean_closed_square :
  arithmetic_mean closed_square = (7 / 5, 7 / 5).
Proof.
  unfold arithmetic_mean, closed_square, Rsum.
  cbn [length fold_right fst snd INR]. f_equal; lra.
Qed.

Close Scope R_scope.

(** ** Scale bar *)

Open Scope R_scope.



Lemma fits_target (mpp : R) (m : Z) :
  0 < mpp -> (IZR m / mpp <= target_px <-> IZR m <= target_px * mpp).
Proof.
  intros Hpos. unfold Rdiv. split; intros H.
  - apply (Rmult_le_compat_r mpp) in H; [| lra].
    rewrite Rmult_assoc, Rinv_l, Rmult_1_r in H; lra.
  - apply (Rmult_le_reg_r mpp); [exact Hpos |].
    rewrite Rmult_assoc, Rinv_l, Rmult_1_r; lra.
Qed.

(** The loop ends on the initial value or on a candidate that fits, and on
    an ascending list no candidate that fits is above the result. *)
Lemma scale_loop_spec (mpp : R) (options : list Z) :
  StronglySorted Z.le options ->
  forall chosen : Z,
    let r := scale_loop mpp options chosen in
    (r = chosen \/ (In r options /\ IZR r / mpp <= target_px))
    /\ (forall m, In m options -> IZR m / mpp <= target_px -> (m <= r)%Z).
Proof.
  induction 1 as [| m0 options Hsorted IH Hall]; intros chosen; cbn zeta.
  - split; [left; reflexivity | intros m []].
  - cbn [scale_loop]. destruct (Rle_dec (IZR m0 / mpp) target_px) as [Hfit | Hno].
    + destruct (IH m0) as [Hr Hmax]. cbn zeta in Hr, Hmax. split.
      * right. destruct Hr as [-> | [Hin Hfits]].
        -- split; [left; reflexivity | exact Hfit].
        -- split; [right; exact Hin | exact Hfits].
      * intros m [<- | Hin] Hm; [| exact (Hmax m Hin Hm)].
        destruct Hr as [-> | [Hin _]]; [lia |].
        rewrite Forall_forall in Hall. apply Hall.
        apply list_elem_of_In. exact Hin.
    + destruct (IH chosen) as [Hr Hmax]. cbn zeta in Hr, Hmax. split.
      * destruct Hr as [-> | [Hin Hfits]]; [left; reflexivity |].
        right. split; [right; exact Hin | exact Hfits].
      * intros m [<- | Hin] Hm; [contradiction | exact (Hmax m Hin Hm)].
Qed.

Lemma options_m_sorted : StronglySorted Z.le options_m.
Proof. unfold options_m. repeat constructor; lia. Qed.

Lemma options_m_least (m : Z) : In m options_m -> (50 <= m)%Z.
Proof.
  unfold options_m. simpl. intros H.
  repeat (destruct H as [<- | H]; [lia |]). destruct H.
Qed.

(** *** In binary64 *)

Lemma b64_scale_loop_spec (mpp : R) (options : list Z) :
  StronglySorted Z.le options ->
  forall chosen : Z,
    let r := B64.scale_loop mpp options chosen in
    (r = chosen \/ (In r options /\ B64.div (IZR r) mpp <= target_px))
    /\ (forall m, In m options -> B64.div (IZR m) mpp <= target_px -> (m <= r)%Z).
Proof.
  induction 1 as [| m0 options Hsorted IH Hall]; intros chosen; cbn zeta.
  - split; [left; reflexivity | intros m []].
  - cbn [B64.scale_loop].
    destruct (Rle_dec (B64.div (IZR m0) mpp) target_px) as [Hfit | Hno].
    + destruct (IH m0) as [Hr Hmax]. cbn zeta in Hr, Hmax. split.
      * right. destruct Hr as [-> | [Hin Hfits]].
        -- split; [left; reflexivity | exact Hfit].
        -- split; [right; exact Hin | exact Hfits].
      * intros m [<- | Hin] Hm; [| exact (Hmax m Hin Hm)].
        destruct Hr as [-> | [Hin _]]; [lia |].
        rewrite Forall_forall in Hall. apply Hall.
        apply list_elem_of_In. exact Hin.
    + destruct (IH chosen) as [Hr Hmax]. cbn zeta in Hr, Hmax. split.
      * destruct Hr as [-> | [Hin Hfits]]; [left; reflexivity |].
        right. split; [right; exact Hin | exact Hfits].
      * intros m [<- | Hin] Hm; [contradiction | exact (Hmax m Hin Hm)].
Qed.

Lemma b64_scale_loop_none_fits (mpp : R) (options : list Z) (chosen : Z) :
  Forall (fun m => target_px < B64.div (IZR m) mpp) options ->
  B64.scale_loop mpp options chosen = chosen.
Proof.
  induction 1 as [| m options Hm _ IH]; [reflexivity |].
  cbn [B64.scale_loop].
  destruct (Rle_dec (B64.div (IZR m) mpp) target_px) as [Hfit | _]; [lra | exact IH].
Qed.

(** The double [math.pi / 180.0] is not negative. *)
Lemma deg_to_rad_nonneg : 0 <= B64.div (B64.lit PI) 180.
Proof.
  unfold B64.div, B64.lit. apply rnd_nonneg.
  pose proof (rnd_nonneg PI (Rlt_le _ _ PI_RGT_0)). 
  apply Rmult_le_pos; [assumption |]. lra.
Qed.

(** A latitude of the globe has its radians between those of the poles. *)
Lemma radians_range (lat : R) :
  -90 <= lat <= 90 -> Rabs (B64.radians lat) <= B64.radians 90.
Proof.
  intros [Hlo Hhi]. pose proof deg_to_rad_nonneg as Hc. unfold B64.radians, B64.mul.
  set (c := B64.div (B64.lit PI) 180) in *. apply Rabs_le. split.
  - rewrite <- rnd_opp. apply rnd_mono. nra.
  - apply rnd_mono. nra.
Qed.

(** The literal [156543.03392] is a double between 156543 and 156544. *)
Lemma lit_equator : 156543 <= B64.lit 156543.03392 <= 156544.
Proof.
  unfold B64.lit. split.
  - apply (rnd_ge_IZR _ 156543); [simpl; lia | lra].
  - apply (rnd_le_IZR _ 156544); [simpl; lia | lra].
Qed.

(** With a cosine of at least 2^-54 the meters per pixel are at least
    2^-55 at the zoom levels up to 18: the divisions of the loop do not
    raise. *)
Lemma b64_meters_per_px_pos (math_cos : R -> R) (proj : MapProjection) :
  (zoom proj <= 18)%Z ->
  pow2 (-54) <= math_cos (B64.radians (center_lat proj)) ->
  pow2 (-55) <= B64.meters_per_px math_cos proj.
Proof.
  intros Hz Hcos. unfold B64.meters_per_px, B64.div, B64.mul.
  pose proof lit_equator as [HL _]. set (L := B64.lit 156543.03392) in *.
  set (c := math_cos _) in *. pose proof (pow2_pos (-54)) as H54.
  assert (Hv : pow2 (-37) <= rnd (L * c)).
  { apply rnd_ge_pow2; [lia |].
    replace (pow2 (-37)) with (pow2 17 * pow2 (-54))
      by (rewrite <- pow2_add; reflexivity).
    apply Rmult_le_compat; try lra; [left; apply pow2_pos |]. pow2_num. lra. }
  apply rnd_ge_pow2; [lia |].
  pose proof (pow2_pos (zoom proj)) as Hp. pose proof (pow2_le _ _ Hz) as Hp18.
  pose proof (pow2_pos (-37)) as H37.
  replace (pow2 (-55)) with (pow2 (-37) / pow2 18).
  2:{ unfold Rdiv. rewrite <- pow2_opp, <- pow2_add. reflexivity. }
  unfold Rdiv. apply Rmult_le_compat; try lra.
  - left. apply Rinv_0_lt_compat. apply pow2_pos.
  - apply Rinv_le_contravar; assumption.
Qed.

(** C7, amended. For every projection with zoom in [10, 18] and reference
    latitude in [-90, 90] degrees, [draw_scale_bar] selects a distance of
    the ascending candidate list; when some candidate has a pixel length
    (as the loop computes it) of at most 160, the selected one is the
    largest such candidate and its pixel length is at most 160; when none
    has, the selected one is 50 meters. The C library's cosine enters by
    one property: it is at least 2^-54 on the doubles between the radians
    of the two poles. *)
Theorem draw_scale_bar_choice (math_cos : R -> R) (proj : MapProjection) :
  (10 <= zoom proj <= 18)%Z ->
  -90 <= center_lat proj <= 90 ->
  cosine_positive math_cos ->
  exists chosen : Z,
    B64.draw_scale_bar math_cos proj = Ok chosen
    /\ In chosen options_m
    /\ (forall m, In m options_m -> B64.bar_length math_cos proj m <= target_px ->
        (m <= chosen)%Z /\ B64.bar_length math_cos proj chosen <= target_px)
    /\ ((forall m, In m options_m -> target_px < B64.bar_length math_cos proj m) ->
        chosen = 50%Z).
Proof.
  intros [_ Hz] Hlat Hcos.
  pose proof (b64_meters_per_px_pos math_cos proj Hz
                (Hcos _ (radians_range _ Hlat))) as Hpos.
  pose proof (pow2_pos (-55)) as H55.
  destruct (b64_scale_loop_spec (B64.meters_per_px math_cos proj) options_m
              options_m_sorted 50%Z) as [Hr Hmax]. cbn zeta in Hr, Hmax.
  exists (B64.scale_loop (B64.meters_per_px math_cos proj) options_m 50).
  split; [| split; [| split]].
  - unfold B64.draw_scale_bar. change options_m with (50%Z :: tl options_m) at 1.
    destruct (Req_dec_T _ 0) as [Hzero | _]; [lra | reflexivity].
  - destruct Hr as [-> | [Hin _]]; [left; reflexivity | exact Hin].
  - intros m Hin Hfit. unfold B64.bar_length in *.
    pose proof (Hmax m Hin Hfit) as Hle. split; [exact Hle |].
    destruct Hr as [Hr | [_ Hfits]]; [| exact Hfits].
    rewrite Hr in *. pose proof (options_m_least m Hin) as Hlo.
    replace m with 50%Z in Hfit by lia. exact Hfit.
  - intros Hnone. destruct Hr as [Hr | [Hin Hfits]]; [exact Hr |].
    specialize (Hnone _ Hin). unfold B64.bar_length in Hnone. lra.
Qed.

Lemma draw_scale_bar_choice_witness :
  (10 <= zoom fresno_projection <= 18)%Z
  /\ -90 <= center_lat fresno_projection <= 90
  /\ cosine_positive floored_cos
  /\ exists chosen : Z,
       B64.draw_scale_bar floored_cos fresno_projection = Ok chosen
       /\ In chosen options_m
       /\ (forall m, In m options_m ->
           B64.bar_length floored_cos fresno_projection m <= target_px ->
           (m <= chosen)%Z
           /\ B64.bar_length floored_cos fresno_projection chosen <= target_px)
       /\ ((forall m, In m options_m ->
            target_px < B64.bar_length floored_cos fresno_projection m) ->
           chosen = 50%Z).
Proof.
  assert (Hzoom : (10 <= zoom fresno_projection <= 18)%Z) by (simpl; lia).
  assert (Hlat : -90 <= center_lat fresno_projection <= 90) by (simpl; lra).
  assert (Hcos : cosine_positive floored_cos).
  { intros x _. unfold floored_cos. apply Rmax_r. }
  split; [exact Hzoom |]. split; [exact Hlat |]. split; [exact Hcos |].
  exact (draw_scale_bar_choice floored_cos fresno_projection Hzoom Hlat Hcos).
Defined.

(** At zoom 18 on latitude 60, with any cosine within a hundredth of 1/2
    there, no candidate fits in 160 pixels: the loop keeps its initial
    value, 50 meters, whose bar is longer than 160 pixels. *)
Lemma draw_scale_bar_exceeds_target :
  (10 <= zoom northern_projection <= 18)%Z
  /\ -90 <= center_lat northern_projection <= 90
  /\ forall math_cos : R -> R,
       Rabs (math_cos (B64.radians 60) - 1 / 2) <= 1 / 100 ->
       B64.draw_scale_bar math_cos northern_projection = Ok 50%Z
       /\ target_px < B64.bar_length math_cos northern_projection 50.
Proof.
  split; [simpl; lia |]. split; [simpl; lra |]. intros math_cos Hcos.
  apply Rabs_le_inv in Hcos. pose proof lit_equator as [HL0 HL1].
  set (mpp := B64.meters_per_px math_cos northern_projection).
  assert (Hmpp : 76706 * pow2 (-18) <= mpp <= 79838 * pow2 (-18)).
  { unfold mpp, B64.meters_per_px, northern_projection, B64.div, B64.mul.
    cbn [center_lat zoom]. set (c := math_cos _) in *.
    set (L := B64.lit 156543.03392) in *.
    assert (Hv : 76706 <= rnd (L * c) <= 79838).
    { split.
      - apply (rnd_ge_IZR _ 76706); [simpl; lia | nra].
      - apply (rnd_le_IZR _ 79838); [simpl; lia | nra]. }
    split.
    - rewrite <- (rnd_exact 76706 (-18)) by (simpl; lia).
      apply rnd_mono. pow2_num. lra.
    - rewrite <- (rnd_exact 79838 (-18)) by (simpl; lia).
      apply rnd_mono. pow2_num. lra. }
  assert (Hlong : forall m, (50 <= m)%Z -> target_px < B64.div (IZR m) mpp).
  { intros m Hm. unfold B64.div, target_px.
    apply Rlt_le_trans with 164; [lra |].
    apply (rnd_ge_IZR _ 164); [simpl; lia |].
    apply IZR_le in Hm. revert Hmpp. pow2_num. intros Hmpp.
    apply (Rmult_le_reg_r mpp); [lra |].
    unfold Rdiv. rewrite Rmult_assoc, Rinv_l by lra. lra. }
  split.
  - unfold B64.draw_scale_bar. fold mpp. cbn [options_m].
    destruct (Req_dec_T mpp 0) as [Hzero | _].
    { rewrite Hzero in Hmpp. revert Hmpp. pow2_num. lra. }
    f_equal. apply b64_scale_loop_none_fits.
    repeat constructor; apply Hlong; lia.
  - unfold B64.bar_length. fold mpp. apply Hlong. lia.
Qed.


Close Scope R_scope.

(** ** Mercator projector *)

Open Scope R_scope.

(** The loop returns one of the levels it is given, or 10. *)
Lemma choose_zoom_loop_range (b : Bounds) (map_width map_height : Z)
    (zooms : list Z) :
  In (choose_zoom_loop b map_width map_height zooms) zooms
  \/ choose_zoom_loop b map_width map_height zooms = 10%Z.
Proof.
  induction zooms as [| z zooms IH]; [right; reflexivity |].
  cbn [choose_zoom_loop]. destruct (fits b map_width map_height z).
  - left. left. reflexivity.
  - destruct IH as [IH | IH]; [left; right; exact IH | right; exact IH].
Qed.

Lemma zoom_levels_descending :
  StronglySorted Z.ge zoom_levels /\ Forall (fun z => (10 <= z)%Z) zoom_levels.
Proof. unfold zoom_levels. split; repeat constructor; lia. Qed.

Close Scope R_scope.

(** * Further properties *)

(** ** Tile cache and fetcher: hits, wrapping, what the cache keeps *)

Section TileCacheMore.

Variable decodable : list Byte.byte -> bool.
Variable net : TileKey -> response.

Implicit Types (cache : gmap TileKey (list Byte.byte)) (z x y : Z).

Lemma cache_key_wrap z x y n : cache_key z (x + n * 2 ^ z) y = cache_key z x y.
Proof. unfold cache_key. rewrite Z_mod_plus_full. reflexivity. Qed.

Lemma load_tile_hit cache z x y stored :
  in_range z y ->
  cache !! cache_key z x y = Some stored ->
  decodable stored = true ->
  load_tile decodable net cache z x y
  = (Ok (Image_open stored), cache,
     [Makedirs; CacheExists (cache_key z x y); CacheRead (cache_key z x y)]).
Proof.
  intros Hr Hhit Hdec. unfold load_tile, cache_key in *.
  rewrite (in_range_test _ _ Hr). cbv zeta. rewrite Hhit, Hdec. reflexivity.
Qed.

Lemma load_tile_fetch cache z x y data :
  in_range z y ->
  cache !! cache_key z x y = None ->
  net (cache_key z x y) = Body data ->
  decodable data = true ->
  load_tile decodable net cache z x y
  = (Ok (Image_open data), <[cache_key z x y := data]> cache,
     [Makedirs; CacheExists (cache_key z x y); NetFetch (cache_key z x y);
      CacheWrite (cache_key z x y) data]).
Proof.
  intros Hr Hmiss Hnet Hdec. unfold load_tile, cache_key in *.
  rewrite (in_range_test _ _ Hr). cbv zeta. rewrite Hmiss, Hnet, Hdec. reflexivity.
Qed.

(** X1. Fetch, then hit. When a tile that is not cached is fetched and its
    bytes decode, every later call for the same tile, also through a column
    index that differs by a multiple of 2^z and whatever the network then
    answers, returns the same image from the cache: it makes no network
    call and leaves the cache as it is. *)
Theorem load_tile_fetch_then_hit cache z x y data (net' : TileKey -> response) (n : Z) :
  in_range z y ->
  cache !! cache_key z x y = None ->
  net (cache_key z x y) = Body data ->
  decodable data = true ->
  fst (fst (load_tile decodable net cache z x y)) = Ok (Image_open data)
  /\ load_tile decodable net'
       (snd (fst (load_tile decodable net cache z x y))) z (x + n * 2 ^ z) y
     = (Ok (Image_open data), snd (fst (load_tile decodable net cache z x y)),
        [Makedirs; CacheExists (cache_key z x y); CacheRead (cache_key z x y)]).
Proof.
  intros Hr Hmiss Hnet Hdec.
  rewrite (load_tile_fetch cache z x y data Hr Hmiss Hnet Hdec). cbn [fst snd].
  split; [reflexivity |].
  unfold load_tile. rewrite (in_range_test _ _ Hr). cbv zeta.
  rewrite Z_mod_plus_full. unfold cache_key.
  rewrite lookup_insert_eq, Hdec. reflexivity.
Qed.

(** X2. A call never removes or changes a cache entry: what was stored
    under a key before the call is stored under it afterwards, and the only
    key whose entry can appear is the key of the requested tile. *)
Theorem load_tile_keeps_entries cache z x y (k : TileKey) :
  (forall stored, cache !! k = Some stored ->
     snd (fst (load_tile decodable net cache z x y)) !! k = Some stored)
  /\ (k <> cache_key z x y ->
      snd (fst (load_tile decodable net cache z x y)) !! k = cache !! k).
Proof.
  unfold load_tile, cache_key.
  destruct ((y <? 0) || (2 ^ z - 1 <? y)); [split; auto |]. cbv zeta.
  destruct (cache !! (z, x mod 2 ^ z, y)) as [stored' |] eqn:Hkey.
  - destruct (decodable stored'); split; auto.
  - assert (Hins : forall data stored,
              cache !! k = Some stored ->
              <[(z, x mod 2 ^ z, y) := data]> cache !! k = Some stored).
    { intros data stored Hk. rewrite lookup_insert_ne; [exact Hk |].
      intros <-. congruence. }
    destruct (net (z, x mod 2 ^ z, y)) as [| | data]; cbn [fst snd];
      try (split; auto; fail).
    destruct (decodable data); cbn [fst snd]; split; auto;
      intros Hne; apply lookup_insert_ne; congruence.
Qed.

(** X3. The column index wraps around the world: shifting x by any
    multiple of 2^z changes nothing of what the call returns, writes and
    does. *)
Theorem load_tile_wraps_x cache z x y (n : Z) :
  load_tile decodable net cache z (x + n * 2 ^ z) y
  = load_tile decodable net cache z x y.
Proof.
  unfold load_tile. rewrite Z_mod_plus_full. reflexivity.
Qed.

(** X4. Only tiles of the world are ever cached: if every key of the cache
    is a zoom level z >= 0 with a column and a row in [0, 2^z), the same
    holds after the call, for any request, also one with a column or row
    off the world. *)
Theorem load_tile_caches_on_world_keys cache z x y :
  map_Forall (fun k _ => on_world k) cache ->
  map_Forall (fun k _ => on_world k)
    (snd (fst (load_tile decodable net cache z x y))).
Proof.
  intros Hall. unfold load_tile.
  destruct ((y <? 0) || (2 ^ z - 1 <? y)) eqn:Hrange; [exact Hall |]. cbv zeta.
  destruct (cache !! (z, x mod 2 ^ z, y)) as [stored |] eqn:Hkey.
  - destruct (decodable stored); exact Hall.
  - assert (Hkey_ok : on_world (z, x mod 2 ^ z, y)).
    { apply orb_false_elim in Hrange as [Hlo Hhi].
      apply Z.ltb_ge in Hlo, Hhi. unfold on_world. cbn [fst snd].
      assert (Hz : 0 <= z).
      { destruct (Z.le_gt_cases 0 z) as [Hz | Hz]; [exact Hz |].
        rewrite (Z.pow_neg_r 2 z Hz) in Hhi. lia. }
      assert (Hpow : 0 < 2 ^ z) by (apply Z.pow_pos_nonneg; lia).
      pose proof (Z.mod_pos_bound x (2 ^ z) Hpow). lia. }
    destruct (net (z, x mod 2 ^ z, y)) as [| | data]; cbn [fst snd];
      try exact Hall.
    destruct (decodable data); cbn [fst snd];
      apply map_Forall_insert; auto.
Qed.

(** X5. The call raises in one case only: the requested row is on the
    world, the tile's file is in the cache and its bytes do not decode. On
    a cache whose files all decode it returns a tile for every zoom, column
    and row and every answer of the network. *)
Theorem load_tile_raises_iff cache z x y (e : exn) :
  fst (fst (load_tile decodable net cache z x y)) = Raise e
  <-> (0 <= y <= 2 ^ z - 1
       /\ e = UnidentifiedImageError
       /\ exists stored, cache !! cache_key z x y = Some stored
                         /\ decodable stored = false).
Proof.
  unfold load_tile, cache_key. split.
  - destruct ((y <? 0) || (2 ^ z - 1 <? y)) eqn:Hrange; [discriminate |].
    apply orb_false_elim in Hrange as [Hlo Hhi]. apply Z.ltb_ge in Hlo, Hhi.
    cbv zeta. destruct (cache !! (z, x mod 2 ^ z, y)) as [stored |] eqn:Hkey.
    + destruct (decodable stored) eqn:Hdec; cbn [fst]; [discriminate |].
      intros H. injection H as <-. split; [lia |]. split; [reflexivity |].
      exists stored. split; [reflexivity | exact Hdec].
    + destruct (net (z, x mod 2 ^ z, y)) as [| | data]; cbn [fst];
        try discriminate.
      destruct (decodable data); discriminate.
  - intros (Hr & -> & stored & Hkey & Hdec).
    rewrite (in_range_test z y Hr). cbv zeta. rewrite Hkey, Hdec. reflexivity.
Qed.

End TileCacheMore.

Lemma load_tile_fetch_then_hit_witness :
  fst (fst (load_tile has_png_signature (fun _ => Body png_signature) ∅ 10 0 0))
  = Ok (Image_open png_signature)
  /\ load_tile has_png_signature (fun _ => Timeout)
       (snd (fst (load_tile has_png_signature (fun _ => Body png_signature) ∅ 10 0 0)))
       10 (0 + 3 * 2 ^ 10) 0
     = (Ok (Image_open png_signature),
        snd (fst (load_tile has_png_signature (fun _ => Body png_signature) ∅ 10 0 0)),
        [Makedirs; CacheExists (cache_key 10 0 0); CacheRead (cache_key 10 0 0)]).
Proof.
  apply (load_tile_fetch_then_hit has_png_signature (fun _ => Body png_signature)
           ∅ 10 0 0 png_signature (fun _ => Timeout) 3).
  - unfold in_range. lia.
  - reflexivity.
  - reflexivity.
  - reflexivity.
Defined.

Lemma load_tile_caches_on_world_keys_witness :
  map_Forall (fun k _ => on_world k)
    (snd (fst (load_tile has_png_signature (fun _ => Body html_page) ∅ 12 4101 9))).
Proof.
  apply (load_tile_caches_on_world_keys has_png_signature (fun _ => Body html_page)
           ∅ 12 4101 9).
  apply map_Forall_empty.
Defined.

(** ** Mercator projector: zoom levels *)

Open Scope R_scope.

Lemma pow2_succ (z : Z) : pow2 (z + 1) = 2 * pow2 z.
Proof.
  unfold pow2. rewrite powerRZ_add by lra. simpl. lra.
Qed.

Lemma world_px_next_level (lon lat : R) (z : Z) :
  fst (lonlat_to_world_px lon lat (z + 1)) = 2 * fst (lonlat_to_world_px lon lat z)
  /\ snd (lonlat_to_world_px lon lat (z + 1))
     = 2 * snd (lonlat_to_world_px lon lat z).
Proof.
  unfold lonlat_to_world_px. cbn [fst snd]. rewrite pow2_succ. split; lra.
Qed.


Lemma fits_spans (b : Bounds) (W H z : Z) :
  fits b W H z = true
  <-> Rabs (fst (lonlat_to_world_px (bounds_max_lon b) (bounds_min_lat b) z)
            - fst (lonlat_to_world_px (bounds_min_lon b) (bounds_max_lat b) z))
      <= IZR W * 0.72
      /\ Rabs (snd (lonlat_to_world_px (bounds_max_lon b) (bounds_min_lat b) z)
               - snd (lonlat_to_world_px (bounds_min_lon b) (bounds_max_lat b) z))
         <= IZR H * 0.72.
Proof.
  destruct b as [[[min_lon min_lat] max_lon] max_lat]. unfold_bounds. unfold fits.
  destruct (lonlat_to_world_px min_lon max_lat z) as [x0 y0].
  destruct (lonlat_to_world_px max_lon min_lat z) as [x1 y1]. cbn [fst snd].
  destruct (Rle_dec _ _) as [H1 | H1]; [destruct (Rle_dec _ _) as [H2 | H2] |];
    split; try tauto; try discriminate; intros [? ?]; contradiction.
Qed.

(** What fits at a zoom level fits one level below. *)
Lemma fits_level_below (b : Bounds) (W H z : Z) :
  fits b W H (z + 1) = true -> fits b W H z = true.
Proof.
  rewrite !fits_spans.
  destruct (world_px_next_level (bounds_max_lon b) (bounds_min_lat b) z) as [-> ->].
  destruct (world_px_next_level (bounds_min_lon b) (bounds_max_lat b) z) as [-> ->].
  intros [Hw Hh].
  rewrite <- Rmult_minus_distr_l, Rabs_mult, (Rabs_right 2) in Hw, Hh by lra.
  pose proof (Rabs_pos (fst (lonlat_to_world_px (bounds_max_lon b) (bounds_min_lat b) z)
            - fst (lonlat_to_world_px (bounds_min_lon b) (bounds_max_lat b) z))).
  pose proof (Rabs_pos (snd (lonlat_to_world_px (bounds_max_lon b) (bounds_min_lat b) z)
            - snd (lonlat_to_world_px (bounds_min_lon b) (bounds_max_lat b) z))).
  split; lra.
Qed.

Lemma fits_levels_below (b : Bounds) (W H z : Z) (k : nat) :
  fits b W H (z + Z.of_nat k) = true -> fits b W H z = true.
Proof.
  induction k as [| k IH].
  - rewrite Z.add_0_r. auto.
  - rewrite Nat2Z.inj_succ, <- Z.add_1_r, Z.add_assoc.
    intros Hfit. apply IH, fits_level_below, Hfit.
Qed.

(** The loop returns the first level of its list that fits. *)
Lemma choose_zoom_loop_first_fit (b : Bounds) (W H : Z) (zooms : list Z) :
  StronglySorted Z.ge zooms ->
  forall z, In z zooms -> fits b W H z = true ->
    fits b W H (choose_zoom_loop b W H zooms) = true
    /\ (z <= choose_zoom_loop b W H zooms)%Z.
Proof.
  induction 1 as [| z0 zooms Hsorted IH Hall]; intros z Hin Hfit; [destruct Hin |].
  cbn [choose_zoom_loop]. destruct (fits b W H z0) eqn:Hz0.
  - split; [exact Hz0 |]. destruct Hin as [<- | Hin]; [lia |].
    rewrite Forall_forall in Hall. apply Z.ge_le, Hall.
    apply list_elem_of_In. exact Hin.
  - destruct Hin as [<- | Hin]; [congruence |]. apply (IH z Hin Hfit).
Qed.

Lemma choose_zoom_loop_none_fits (b : Bounds) (W H : Z) (zooms : list Z) :
  (forall z, In z zooms -> fits b W H z = false) ->
  choose_zoom_loop b W H zooms = 10%Z.
Proof.
  induction zooms as [| z0 zooms IH]; intros Hnone; [reflexivity |].
  cbn [choose_zoom_loop]. rewrite (Hnone z0) by (left; reflexivity).
  apply IH. intros z Hin. apply Hnone. right. exact Hin.
Qed.

Lemma zoom_levels_spec (z : Z) : In z zoom_levels <-> (10 <= z <= 18)%Z.
Proof.
  unfold zoom_levels. simpl. split.
  - intros H. repeat (destruct H as [<- | H]; [lia |]). destruct H.
  - intros H.
    assert (Hz : (z = 18 \/ z = 17 \/ z = 16 \/ z = 15 \/ z = 14 \/ z = 13
                  \/ z = 12 \/ z = 11 \/ z = 10)%Z) by lia.
    repeat (destruct Hz as [-> | Hz]; [tauto |]). subst. tauto.
Qed.

(** X7. The chosen zoom is always one of the levels 10 to 18, and so is
    the zoom of every projection [build_projection] makes. *)
Theorem choose_zoom_in_levels (b : Bounds) (left top W H : Z) :
  (10 <= choose_zoom b W H <= 18)%Z
  /\ (10 <= zoom (build_projection b left top W H) <= 18)%Z.
Proof.
  assert (Hrange : (10 <= choose_zoom b W H <= 18)%Z).
  { unfold choose_zoom.
    destruct (choose_zoom_loop_range b W H zoom_levels) as [Hin | ->]; [| lia].
    apply zoom_levels_spec, Hin. }
  split; [exact Hrange |].
  destruct b as [[[min_lon min_lat] max_lon] max_lat]. unfold build_projection.
  destruct (lonlat_to_world_px min_lon max_lat _) as [x0 y0].
  destruct (lonlat_to_world_px max_lon min_lat _) as [x1 y1].
  exact Hrange.
Qed.

(** X8. The chosen zoom is the threshold of the levels that fit: when the
    bounds fit the viewport at level 10, a level between 10 and 18 fits
    exactly when it is at most the chosen zoom; when they do not fit at
    level 10, they fit at no level and the chosen zoom is 10. *)
Theorem choose_zoom_threshold (b : Bounds) (W H : Z) :
  (fits b W H 10 = true ->
   forall z, (10 <= z <= 18)%Z ->
     (fits b W H z = true <-> (z <= choose_zoom b W H)%Z))
  /\ (fits b W H 10 = false ->
      (forall z, (10 <= z <= 18)%Z -> fits b W H z = false)
      /\ choose_zoom b W H = 10%Z).
Proof.
  destruct zoom_levels_descending as [Hsorted _].
  assert (Hnone : fits b W H 10 = false ->
                  forall z, (10 <= z <= 18)%Z -> fits b W H z = false).
  { intros H10 z Hz. destruct (fits b W H z) eqn:Hfit; [| reflexivity].
    replace z with (10 + Z.of_nat (Z.to_nat (z - 10)))%Z in Hfit by lia.
    apply fits_levels_below in Hfit. congruence. }
  split.
  - intros H10 z Hz. unfold choose_zoom. split.
    + intros Hfit. apply (choose_zoom_loop_first_fit b W H zoom_levels Hsorted z);
        [apply zoom_levels_spec, Hz | exact Hfit].
    + intros Hle.
      destruct (choose_zoom_loop_first_fit b W H zoom_levels Hsorted 10%Z)
        as [Hfit _]; [apply zoom_levels_spec; lia | exact H10 |].
      replace (choose_zoom_loop b W H zoom_levels)
        with (z + Z.of_nat (Z.to_nat (choose_zoom_loop b W H zoom_levels - z)))%Z
        in Hfit by lia.
      apply fits_levels_below in Hfit. exact Hfit.
  - intros H10. split; [exact (Hnone H10) |].
    unfold choose_zoom. apply choose_zoom_loop_none_fits.
    intros z Hin. apply (Hnone H10), zoom_levels_spec, Hin.
Qed.

Close Scope R_scope.

(** ** Projection and image coordinates *)

Open Scope R_scope.

Lemma build_projection_fields (b : Bounds) (left top W H : Z) :
  let z := choose_zoom b W H in
  let p0 := lonlat_to_world_px (bounds_min_lon b) (bounds_max_lat b) z in
  let p1 := lonlat_to_world_px (bounds_max_lon b) (bounds_min_lat b) z in
  build_projection b left top W H
  = {| zoom := z;
       crop_min_x := (fst p0 + fst p1) / 2 - IZR W / 2;
       crop_min_y := (snd p0 + snd p1) / 2 - IZR H / 2;
       map_left := left;
       map_top := top;
       map_width := W;
       map_height := H;
       center_lat := (bounds_min_lat b + bounds_max_lat b) / 2 |}.
Proof.
  destruct b as [[[min_lon min_lat] max_lon] max_lat]. unfold_bounds.
  unfold build_projection. cbv zeta.
  destruct (lonlat_to_world_px min_lon max_lat _) as [x0 y0].
  destruct (lonlat_to_world_px max_lon min_lat _) as [x1 y1]. reflexivity.
Qed.

Close Scope R_scope.

(** ** Bounds calculator: more padding *)

Open Scope R_scope.

(** X13. More padding or larger minimum spans never shrink the result:
    the bounds for the larger arguments contain the bounds for the smaller
    ones. *)
Theorem contextual_bounds_grows (b : Bounds) (p q sx sx' sy sy' : R) :
  0 <= p <= q -> sx <= sx' -> sy <= sy' ->
  contains (contextual_bounds b q sx' sy') (contextual_bounds b p sx sy).
Proof.
  intros [Hp Hq] Hsx Hsy. rewrite !contextual_bounds_components.
  assert (Hmono : forall d s s', s <= s' ->
            Rmax (Rmax d s) 1e-6 * (0.5 + p) <= Rmax (Rmax d s') 1e-6 * (0.5 + q)).
  { intros d s s' Hs. rmax_cases; nra. }
  pose proof (Hmono (bounds_max_lon b - bounds_min_lon b) sx sx' Hsx).
  pose proof (Hmono (bounds_max_lat b - bounds_min_lat b) sy sy' Hsy).
  unfold_bounds. repeat split; lra.
Qed.

Lemma contextual_bounds_grows_witness :
  contains (contextual_bounds square_bounds 0.38 0.0045 0.0035)
           (contextual_bounds square_bounds 0.28 0 0).
Proof.
  apply (contextual_bounds_grows square_bounds 0.28 0.38 0 0.0045 0 0.0035); lra.
Defined.

Close Scope R_scope.

(** ** Bounds calculator: finite coordinates *)

Open Scope R_scope.

(** On finite coordinates [collect_bounds] succeeds as soon as there is a
    ring, with the extrema of the coordinates. *)
Lemma collect_bounds_finite (feature_items : list feature) (rings : list Ring) :
  all_rings feature_items = Ok rings ->
  rings <> [] ->
  Forall (fun p => finite_point p = true) (concat rings) ->
  exists a b c d : R,
    collect_bounds feature_items = Ok (Fin a, Fin b, Fin c, Fin d)
    /\ is_least a (map fst (concat rings))
    /\ is_least b (map snd (concat rings))
    /\ is_greatest c (map fst (concat rings))
    /\ is_greatest d (map snd (concat rings)).
Proof.
  intros Hrings Hne Hfin.
  pose proof (collect_loop_all_rings feature_items rings (PInf, NInf, PInf, NInf)
                Hrings) as Hloop.
  rewrite fold_track_components in Hloop.
  assert (Hvs : concat rings <> []).
  { destruct rings as [| ring rings']; [congruence |].
    pose proof (all_rings_lengths feature_items _ Hrings) as Hlen.
    inversion Hlen as [| ? ? Hring _]; subst.
    destruct ring; simpl in *; [lia | discriminate]. }
  assert (Hlons : Forall (fun x => isfinite x = true) (map fst (concat rings))).
  { apply Forall_map. eapply Forall_impl; [exact Hfin |].
    intros q Hq. apply andb_prop in Hq. simpl. tauto. }
  assert (Hlats : Forall (fun x => isfinite x = true) (map snd (concat rings))).
  { apply Forall_map. eapply Forall_impl; [exact Hfin |].
    intros q Hq. apply andb_prop in Hq. simpl. tauto. }
  assert (Hlons_ne : map fst (concat rings) <> []).
  { destruct (concat rings); [congruence | discriminate]. }
  assert (Hlats_ne : map snd (concat rings) <> []).
  { destruct (concat rings); [congruence | discriminate]. }
  destruct (fold_pymin_least _ Hlons_ne Hlons) as (a & Ha & Hmin_lon).
  destruct (fold_pymax_greatest _ Hlons_ne Hlons) as (c & Hc & Hmax_lon).
  destruct (fold_pymin_least _ Hlats_ne Hlats) as (b & Hb & Hmin_lat).
  destruct (fold_pymax_greatest _ Hlats_ne Hlats) as (d & Hd & Hmax_lat).
  exists a, b, c, d. split; [| tauto].
  unfold collect_bounds. rewrite Hloop, Ha, Hb, Hc, Hd. reflexivity.
Qed.

(** ** Scale bar: zoom levels and latitudes *)

Lemma pow2_add_nat (z : Z) (k : nat) : pow2 z <= pow2 (z + Z.of_nat k).
Proof.
  induction k as [| k IH].
  - rewrite Z.add_0_r. lra.
  - rewrite Nat2Z.inj_succ, <- Z.add_1_r, Z.add_assoc, pow2_succ.
    pose proof (pow2_pos z). lra.
Qed.

Lemma pow2_monotone (z1 z2 : Z) : (z1 <= z2)%Z -> pow2 z1 <= pow2 z2.
Proof.
  intros H. replace z2 with (z1 + Z.of_nat (Z.to_nat (z2 - z1)))%Z by lia.
  apply pow2_add_nat.
Qed.





Lemma cos_PI4_above : 0.7 <= cos (PI / 4).
Proof.
  pose proof (sin2_cos2 (PI / 4)) as H. rewrite sin_cos_PI4 in H.
  unfold Rsqr in H.
  assert (Hpos : 0 < cos (PI / 4)).
  { pose proof PI_RGT_0. apply cos_gt_0; lra. }
  nra.
Qed.

Lemma cos_radians_mid_latitude (lat : R) :
  -45 <= lat <= 45 -> 0.7 <= cos (radians lat).
Proof.
  intros [Hlo Hhi]. pose proof PI_RGT_0 as Hpi.
  eapply Rle_trans; [apply cos_PI4_above |].
  destruct (Rle_dec 0 lat) as [Hpos | Hneg].
  - apply cos_decr_1; unfold radians; nra.
  - rewrite <- (cos_neg (radians lat)). apply cos_decr_1; unfold radians; nra.
Qed.

Lemma meters_per_px_mid_latitude (proj : MapProjection) :
  (zoom proj <= 18)%Z -> -45 <= center_lat proj <= 45 ->
  0.3125 <= meters_per_px proj.
Proof.
  intros Hzoom Hlat. unfold meters_per_px.
  pose proof (cos_radians_mid_latitude _ Hlat) as Hcos.
  pose proof (pow2_pos (zoom proj)) as Hn.
  pose proof (pow2_monotone _ _ Hzoom) as Hpow.
  assert (H18 : pow2 18 = 262144) by (unfold pow2; simpl; lra).
  rewrite H18 in Hpow.
  apply (Rmult_le_reg_r (pow2 (zoom proj))); [exact Hn |].
  unfold Rdiv. rewrite Rmult_assoc, Rinv_l by (apply Rgt_not_eq; exact Hn).
  nra.
Qed.

(** When the 50 m bar fits, the selected bar fits. *)
Lemma scale_loop_fits (mpp : R) :
  0 < mpp -> IZR 50 / mpp <= target_px ->
  In (scale_loop mpp options_m 50) options_m
  /\ IZR (scale_loop mpp options_m 50) / mpp <= target_px.
Proof.
  intros Hpos H50.
  destruct (scale_loop_spec mpp options_m options_m_sorted 50%Z) as [Hr _].
  cbn zeta in Hr. destruct Hr as [-> | [Hin Hfit]].
  - split; [left; reflexivity | exact H50].
  - split; [exact Hin | exact Hfit].
Qed.

(** With at least 0.3125 meters per pixel the 50 m bar fits, and so does
    the selected one. *)
Lemma draw_scale_bar_coarse (proj : MapProjection) :
  0.3125 <= meters_per_px proj ->
  exists chosen : Z,
    draw_scale_bar proj = Ok chosen
    /\ In chosen options_m
    /\ bar_length proj chosen <= target_px.
Proof.
  intros Hmpp.
  assert (Hpos : 0 < meters_per_px proj) by lra.
  assert (H50 : IZR 50 / meters_per_px proj <= target_px).
  { apply fits_target; [exact Hpos |]. unfold target_px. lra. }
  destruct (scale_loop_fits _ Hpos H50) as [Hin Hfit].
  exists (scale_loop (meters_per_px proj) options_m 50).
  split; [| split; [exact Hin | exact Hfit]].
  unfold draw_scale_bar. change options_m with (50%Z :: tl options_m) at 1.
  destruct (Req_dec_T _ 0) as [Hzero | _]; [lra | reflexivity].
Qed.


(** X18. From bounds to scale bar. For bounds whose latitudes lie between
    45 degrees south and 45 degrees north, whatever the viewport, the
    scale bar of the projection [build_projection] makes is drawn without
    an exception and at most 160 pixels long. *)
Theorem scale_bar_of_built_projection (b : Bounds) (left top W H : Z) :
  -45 <= bounds_min_lat b <= 45 ->
  -45 <= bounds_max_lat b <= 45 ->
  exists chosen : Z,
    draw_scale_bar (build_projection b left top W H) = Ok chosen
    /\ In chosen options_m
    /\ bar_length (build_projection b left top W H) chosen <= target_px.
Proof.
  intros Hmin Hmax. apply draw_scale_bar_coarse.
  apply meters_per_px_mid_latitude.
  - rewrite build_projection_fields. cbn [zoom]. unfold choose_zoom.
    destruct (choose_zoom_loop_range b W H zoom_levels) as [Hin | ->]; [| lia].
    apply zoom_levels_spec in Hin. lia.
  - rewrite build_projection_fields. cbn [center_lat]. lra.
Qed.


Lemma scale_bar_of_built_projection_witness :
  exists chosen : Z,
    draw_scale_bar (build_projection square_bounds 28 92 2144 1350) = Ok chosen
    /\ In chosen options_m
    /\ bar_length (build_projection square_bounds 28 92 2144 1350) chosen
       <= target_px.
Proof.
  apply (scale_bar_of_built_projection square_bounds 28 92 2144 1350);
    unfold square_bounds; unfold_bounds; lra.
Defined.

Close Scope R_scope.

(** ** Ring extraction: interior rings and the number of rings *)

Lemma truthy_strip_holes (poly : json) : truthy (strip_holes poly) = truthy poly.
Proof. destruct poly as [| f | n | [| outer [| hole holes]]]; reflexivity. Qed.

Lemma index0_strip_holes (poly : json) : index0 (strip_holes poly) = index0 poly.
Proof. destruct poly as [| f | n | [| outer [| hole holes]]]; reflexivity. Qed.

Lemma outer_rings_loop_strip_holes (polys : list json) :
  forall rings : list Ring,
    outer_rings_loop (map strip_holes polys) rings = outer_rings_loop polys rings.
Proof.
  induction polys as [| poly polys IH]; intros rings; [reflexivity |].
  cbn [map outer_rings_loop].
  rewrite truthy_strip_holes, index0_strip_holes.
  destruct (negb (truthy poly)); [apply IH |].
  destruct (index0 poly) as [outer | e]; cbn [bind]; [| reflexivity].
  destruct (iter outer) as [items | e]; cbn [bind]; [| reflexivity].
  destruct (mapM position items) as [ring | e]; cbn [bind]; [| reflexivity].
  destruct (3 <=? length ring)%nat; apply IH.
Qed.

(** X19. Interior rings are never read: a geometry and the same geometry
    with the holes of its polygons removed give the same result, rings and
    exceptions alike. *)
Theorem polygon_outer_rings_ignores_holes (g : geometry) :
  polygon_outer_rings (without_holes g) = polygon_outer_rings g.
Proof.
  unfold polygon_outer_rings, without_holes, gtype_is. cbn [gtype coordinates].
  fold (gtype_is g "Polygon") (gtype_is g "MultiPolygon").
  destruct (gtype_is g "Polygon").
  - destruct (coordinates g) as [poly |]; [| reflexivity].
    apply (outer_rings_loop_strip_holes [poly] []).
  - destruct (gtype_is g "MultiPolygon"); [| reflexivity].
    destruct (coordinates g) as [[| f | n | polys] |]; try reflexivity.
    cbn [iter bind]. apply outer_rings_loop_strip_holes.
Qed.

Lemma outer_rings_loop_count (polys : list json) :
  forall acc rings : list Ring,
    outer_rings_loop polys acc = Ok rings ->
    (length rings <= length acc + length polys)%nat.
Proof.
  induction polys as [| poly polys IH]; intros acc rings Hrun.
  - simpl in Hrun. injection Hrun as <-. simpl. lia.
  - cbn [outer_rings_loop] in Hrun. cbn [length].
    destruct (truthy poly); cbn [negb] in Hrun.
    + destruct (index0 poly) as [outer | e]; cbn [bind] in Hrun; [| discriminate].
      destruct (iter outer) as [items | e]; cbn [bind] in Hrun; [| discriminate].
      destruct (mapM position items) as [ring | e]; cbn [bind] in Hrun;
        [| discriminate].
      destruct (3 <=? length ring)%nat.
      * apply IH in Hrun. rewrite length_app in Hrun. simpl in Hrun. lia.
      * apply IH in Hrun. lia.
    + apply IH in Hrun. lia.
Qed.

(** X20. A Polygon gives at most one ring and a MultiPolygon at most one
    ring for each of its polygons. *)
Theorem polygon_outer_rings_count (g : geometry) (rings : list Ring) :
  polygon_outer_rings g = Ok rings ->
  (length rings <= length (polygons_of g))%nat
  /\ (gtype g = Some "Polygon"%string -> (length rings <= 1)%nat).
Proof.
  intros Hrun.
  assert (Hcount : (length rings <= length (polygons_of g))%nat).
  { revert Hrun. unfold polygon_outer_rings, polygons_of.
    destruct (gtype_is g "Polygon").
    - intros Hrun. apply outer_rings_loop_count in Hrun. exact Hrun.
    - destruct (gtype_is g "MultiPolygon").
      + destruct (match coordinates g with Some c => c | None => JArr [] end)
          as [| f | n | polys]; cbn [iter bind]; try discriminate.
        intros Hrun. apply outer_rings_loop_count in Hrun. exact Hrun.
      + intros Hrun. injection Hrun as <-. simpl. lia. }
  split; [exact Hcount |].
  intros Hpoly. revert Hcount. unfold polygons_of, gtype_is. rewrite Hpoly.
  simpl. auto.
Qed.

Lemma polygon_outer_rings_count_witness :
  (length [[(Fin 0, Fin 0); (Fin 4, Fin 0); (Fin 0, Fin 4); (Fin 0, Fin 0)]]%R
   <= length (polygons_of mixed_multipolygon))%nat
  /\ (gtype mixed_multipolygon = Some "Polygon"%string ->
      (length [[(Fin 0, Fin 0); (Fin 4, Fin 0); (Fin 0, Fin 4); (Fin 0, Fin 0)]]%R
       <= 1)%nat).
Proof.
  apply (polygon_outer_rings_count mixed_multipolygon). reflexivity.
Defined.

(** ** Centroid of a ring: exceptions *)

Open Scope R_scope.

(** X21. [ring_centroid] raises on the empty ring only, with IndexError; a
    ring of one or two vertices gives its first vertex; and where the
    weighted formula is used its divisor is at least 3e-12 in absolute
    value, so that no division by zero occurs. *)
Theorem ring_centroid_exceptions (ring : list Point) :
  (forall e, ring_centroid ring = Raise e <-> ring = [] /\ e = IndexError)
  /\ (forall p rest, ring = p :: rest -> (length ring < 3)%nat ->
        ring_centroid ring = Ok p)
  /\ (1e-12 <= Rabs (fst (fst (edge_loop ring (0, 0, 0)))) ->
      3e-12 <= Rabs (6 * (fst (fst (edge_loop ring (0, 0, 0))) * 0.5))).
Proof.
  split; [| split].
  - intros e. unfold ring_centroid.
    destruct (length ring <? 3)%nat eqn:Hn.
    + destruct ring as [| p rest].
      * split; [intros H; injection H as <-; auto | intros [_ ->]; reflexivity].
      * split; [discriminate | intros [H _]; discriminate].
    + destruct (edge_loop ring (0, 0, 0)) as [[a cx] cy].
      assert (Hne : ring <> []) by (intros ->; discriminate).
      destruct (Rlt_dec (Rabs a) 1e-12);
        (split; [discriminate | intros [H _]; contradiction]).
  - intros p rest -> Hlen. unfold ring_centroid.
    apply Nat.ltb_lt in Hlen. rewrite Hlen. reflexivity.
  - intros Ha. replace (6 * (fst (fst (edge_loop ring (0, 0, 0))) * 0.5))
      with (3 * fst (fst (edge_loop ring (0, 0, 0)))) by lra.
    rewrite Rabs_mult, (Rabs_right 3) by lra. lra.
Qed.

Close Scope R_scope.

(** ** Basemap compositor: the tile grid *)


Section BasemapFacts.

Variable decodable : list Byte.byte -> bool.

Implicit Types (cache : gmap TileKey (list Byte.byte)) (net : TileKey -> response).

(** A call keeps what the cache holds. *)
Lemma load_tile_preserves net cache (z x y : Z) (k : TileKey) (stored : list Byte.byte) :
  cache !! k = Some stored ->
  snd (fst (load_tile decodable net cache z x y)) !! k = Some stored.
Proof.
  intros Hk. unfold load_tile.
  destruct ((y <? 0) || (2 ^ z - 1 <? y)); [exact Hk |]. cbv zeta.
  destruct (cache !! (z, x mod 2 ^ z, y)) as [stored' |] eqn:Hkey.
  - destruct (decodable stored'); exact Hk.
  - assert (Hne : (z, x mod 2 ^ z, y) <> k) by (intros <-; congruence).
    destruct (net (z, x mod 2 ^ z, y)) as [| | data]; cbn [fst snd];
      try exact Hk.
    destruct (decodable data); cbn [fst snd];
      rewrite lookup_insert_ne; assumption.
Qed.

Lemma render_rows_preserves net (proj : MapProjection) (tx : Z) (tys : list Z)
    (k : TileKey) (stored : list Byte.byte) :
  forall cache (acc : list paste),
    cache !! k = Some stored ->
    snd (fst (render_rows decodable net proj tx tys cache acc)) !! k = Some stored.
Proof.
  induction tys as [| ty tys IH]; intros cache acc Hk; [exact Hk |].
  cbn [render_rows].
  pose proof (load_tile_preserves net cache (zoom proj) tx ty k stored Hk) as Hload.
  destruct (load_tile decodable net cache (zoom proj) tx ty) as [[[tile | e] c1] e1];
    cbn [fst snd] in Hload; [| exact Hload].
  cbv zeta.
  pose proof (IH c1 (acc ++ [{| pasted := tile;
                                paste_x := paste_offset tx (crop_min_x proj);
                                paste_y := paste_offset ty (crop_min_y proj) |}])
                Hload) as Hrest.
  destruct (render_rows decodable net proj tx tys c1 _) as [[r2 c2] e2].
  exact Hrest.
Qed.

Lemma render_columns_preserves net (proj : MapProjection) (txs tys : list Z)
    (k : TileKey) (stored : list Byte.byte) :
  forall cache (acc : list paste),
    cache !! k = Some stored ->
    snd (fst (render_columns decodable net proj txs tys cache acc)) !! k
    = Some stored.
Proof.
  induction txs as [| tx txs IH]; intros cache acc Hk; [exact Hk |].
  cbn [render_columns].
  pose proof (render_rows_preserves net proj tx tys k stored cache acc Hk) as Hrows.
  destruct (render_rows decodable net proj tx tys cache acc)
    as [[[out1 | e] c1] e1]; cbn [fst snd] in Hrows; [| exact Hrows].
  pose proof (IH c1 out1 Hrows) as Hrest.
  destruct (render_columns decodable net proj txs tys c1 out1) as [[r2 c2] e2].
  exact Hrest.
Qed.

(** X26. Rendering only adds to the cache: whatever [render_basemap]
    returns or raises, every file that was in the cache is in it
    afterwards, with the same bytes. *)
Theorem render_basemap_keeps_entries net (proj : MapProjection) cache
    (k : TileKey) (stored : list Byte.byte) :
  cache !! k = Some stored ->
  snd (fst (render_basemap decodable net proj cache)) !! k = Some stored.
Proof.
  intros Hk. unfold render_basemap.
  destruct ((map_width proj <? 0) || (map_height proj <? 0)); [exact Hk |].
  cbv zeta. apply render_columns_preserves. exact Hk.
Qed.

End BasemapFacts.

Lemma render_basemap_keeps_entries_witness :
  snd (fst (render_basemap has_png_signature (fun _ => Body html_page)
              fresno_projection {[ (10, 0, 0) := png_signature ]}))
    !! (10, 0, 0)
  = Some png_signature.
Proof.
  apply (render_basemap_keeps_entries has_png_signature (fun _ => Body html_page)
           fresno_projection {[ (10, 0, 0) := png_signature ]} (10, 0, 0)).
  reflexivity.
Defined.

(** ** Basemap compositor: network calls and exceptions *)

Section BasemapEffects.

Variable decodable : list Byte.byte -> bool.
Variable net : TileKey -> response.

Implicit Types (cache : gmap TileKey (list Byte.byte)).












End BasemapEffects.



(** ** Bounds calculator: the order of the features *)

Lemma mapM_permutation {A B : Type} (f : A -> result B) (l l' : list A) :
  Permutation l l' ->
  forall bs, mapM f l = Ok bs ->
  exists bs', mapM f l' = Ok bs' /\ Permutation bs bs'.
Proof.
  induction 1 as [| a l l' Hperm IH | a b l | l l' l'' _ IH1 _ IH2]; intros bs Hrun.
  - exists bs. split; [exact Hrun | reflexivity].
  - cbn [mapM] in *. destruct (f a) as [fa | e]; cbn [bind] in *; [| discriminate].
    destruct (mapM f l) as [bs0 | e]; cbn [bind] in *; [| discriminate].
    injection Hrun as <-. destruct (IH bs0 eq_refl) as (bs' & -> & Hbs).
    exists (fa :: bs'). split; [reflexivity | constructor; exact Hbs].
  - cbn [mapM] in *.
    destruct (f b) as [fb | e]; cbn [bind] in *; [| discriminate].
    destruct (f a) as [fa | e]; cbn [bind] in *; [| discriminate].
    destruct (mapM f l) as [bs0 | e]; cbn [bind] in *; [| discriminate].
    injection Hrun as <-. exists (fa :: fb :: bs0).
    split; [reflexivity | constructor].
  - destruct (IH1 bs Hrun) as (bs1 & Hrun1 & Hperm1).
    destruct (IH2 bs1 Hrun1) as (bs2 & Hrun2 & Hperm2).
    exists bs2. split; [exact Hrun2 | etransitivity; eassumption].
Qed.

Lemma concat_permutation {A : Type} (ls ls' : list (list A)) :
  Permutation ls ls' -> Permutation (concat ls) (concat ls').
Proof.
  induction 1 as [| a l l' _ IH | a b l | l l' l'' _ IH1 _ IH2].
  - reflexivity.
  - cbn [concat]. apply Permutation_app_head, IH.
  - cbn [concat]. rewrite !app_assoc.
    apply Permutation_app_tail, Permutation_app_comm.
  - etransitivity; eassumption.
Qed.

Lemma all_rings_permutation (items items' : list feature) (rings : list Ring) :
  Permutation items items' ->
  all_rings items = Ok rings ->
  exists rings', all_rings items' = Ok rings' /\ Permutation rings rings'.
Proof.
  unfold all_rings. intros Hperm Hrun.
  destruct (mapM _ items) as [ringss | e] eqn:Hmap; cbn [bind] in Hrun;
    [| discriminate].
  injection Hrun as <-.
  destruct (mapM_permutation _ _ _ Hperm _ Hmap) as (ringss' & -> & Hp).
  exists (concat ringss'). split; [reflexivity | apply concat_permutation, Hp].
Qed.

Lemma is_least_unique (m m' : R) (l l' : list pyfloat) :
  Permutation l l' -> is_least m l -> is_least m' l' -> m = m'.
Proof.
  intros Hperm [Hin Hmin] [Hin' Hmin'].
  apply (Permutation_in _ Hperm) in Hin.
  apply (Permutation_in _ (Permutation_sym Hperm)) in Hin'.
  pose proof (Hmin _ Hin'). pose proof (Hmin' _ Hin). lra.
Qed.

Lemma is_greatest_unique (m m' : R) (l l' : list pyfloat) :
  Permutation l l' -> is_greatest m l -> is_greatest m' l' -> m = m'.
Proof.
  intros Hperm [Hin Hmax] [Hin' Hmax'].
  apply (Permutation_in _ Hperm) in Hin.
  apply (Permutation_in _ (Permutation_sym Hperm)) in Hin'.
  pose proof (Hmax _ Hin'). pose proof (Hmax' _ Hin). lra.
Qed.

(** X30. The bounds do not depend on the order of the features: when the
    features have a ring and finite coordinates, [collect_bounds] returns
    the same bounds for the features in any other order. *)
Theorem collect_bounds_any_order (items items' : list feature) (rings : list Ring) :
  Permutation items items' ->
  all_rings items = Ok rings ->
  rings <> [] ->
  Forall (fun p => finite_point p = true) (concat rings) ->
  collect_bounds items' = collect_bounds items.
Proof.
  intros Hperm Hrings Hne Hfin.
  destruct (all_rings_permutation items items' rings Hperm Hrings)
    as (rings' & Hrings' & Hp).
  assert (Hne' : rings' <> []).
  { intros ->. apply Permutation_sym, Permutation_nil in Hp. contradiction. }
  pose proof (concat_permutation _ _ Hp) as Hvs.
  assert (Hfin' : Forall (fun p => finite_point p = true) (concat rings')).
  { rewrite Forall_forall in *. intros p Hin. apply Hfin.
    rewrite list_elem_of_In in *.
    apply (Permutation_in _ (Permutation_sym Hvs)), Hin. }
  destruct (collect_bounds_finite items rings Hrings Hne Hfin)
    as (a & b & c & d & -> & Ha & Hb & Hc & Hd).
  destruct (collect_bounds_finite items' rings' Hrings' Hne' Hfin')
    as (a' & b' & c' & d' & -> & Ha' & Hb' & Hc' & Hd').
  pose proof (Permutation_map fst Hvs) as Hlons.
  pose proof (Permutation_map snd Hvs) as Hlats.
  rewrite (is_least_unique a a' _ _ Hlons Ha Ha').
  rewrite (is_least_unique b b' _ _ Hlats Hb Hb').
  rewrite (is_greatest_unique c c' _ _ Hlons Hc Hc').
  rewrite (is_greatest_unique d d' _ _ Hlats Hd Hd').
  reflexivity.
Qed.

Lemma collect_bounds_any_order_witness :
  collect_bounds [triangle_parcel; square_parcel]
  = collect_bounds [square_parcel; triangle_parcel].
Proof.
  assert (Hrings : all_rings [square_parcel; triangle_parcel]
                   = Ok [[(Fin (-119.9), Fin 36.7); (Fin (-119.8), Fin 36.7);
                          (Fin (-119.8), Fin 36.8); (Fin (-119.9), Fin 36.8);
                          (Fin (-119.9), Fin 36.7)];
                         [(Fin 0, Fin 0); (Fin 4, Fin 0); (Fin 0, Fin 4);
                          (Fin 0, Fin 0)]]%R) by reflexivity.
  apply (collect_bounds_any_order [square_parcel; triangle_parcel]
           [triangle_parcel; square_parcel] _ (perm_swap _ _ _) Hrings).
  - discriminate.
  - repeat constructor.
Defined.
